(** * HEMI portability macros (hemi/hemi.h): a shallow embedding

    The header is conditional-compilation plumbing plus four small inline
    functions.  The embedding follows the header section by section:

    - [build]: the preprocessor symbols the header tests;
    - [Ints]: the 32-bit [int] and [unsigned int] arithmetic the
      work-partitioning helpers compute in;
    - [hemiGetElementOffset], [hemiGetElementStride] and the grid-strided
      loop of the usage note that precedes them;
    - [checkCuda] and [checkCudaErrors] over an explicit world (runtime
      state and an event trace), with abnormal termination as an outcome;
    - the macros, as functions from argument tokens to replacement tokens. *)

From Stdlib Require Import ZArith List String Bool Lia.
Import ListNotations.

Local Open Scope Z_scope.

(** ** Compilation mode *)

(** One field per preprocessor symbol that decides what the header's text
    means: those the header tests itself and [NDEBUG], which <assert.h>
    (included on line 44) tests to decide what [assert] is.  [true] means
    the symbol is defined for the current pass over the translation unit. *)
Record build : Type := {
  __CUDACC__ : bool;     (* the CUDA compiler is processing the file *)
  __CUDA_ARCH__ : bool;  (* this pass generates device code *)
  DEBUG : bool;
  _DEBUG : bool;
  NDEBUG : bool          (* <assert.h> makes assert(e) the no-op ((void)0) *)
}.

(** [#if defined(DEBUG) || defined(_DEBUG)] *)
Definition debug_enabled (b : build) : bool := DEBUG b || _DEBUG b.

(** [HEMI_CUDA_COMPILER] is defined in the [#ifdef __CUDACC__] branch,
    [HEMI_HOST_COMPILER] in its [#else] branch. *)
Definition HEMI_CUDA_COMPILER (b : build) : bool := __CUDACC__ b.
Definition HEMI_HOST_COMPILER (b : build) : bool := negb (__CUDACC__ b).

(** [HEMI_DEV_CODE] is defined only inside the [__CUDACC__] branch, and
    there only under [#ifdef __CUDA_ARCH__]. *)
Definition HEMI_DEV_CODE (b : build) : bool := __CUDACC__ b && __CUDA_ARCH__ b.

Definition HEMI_LOC_STRING (b : build) : string :=
  if __CUDACC__ b then "Device"%string else "Host"%string.

(** ** 32-bit integers *)

Module Ints.

Definition int_min : Z := - 2 ^ 31.
Definition int_max : Z := 2 ^ 31 - 1.
Definition uint_modulus : Z := 2 ^ 32.

(** [unsigned int] multiplication and addition reduce modulo 2^32. *)
Definition uint_mul (a b : Z) : Z := (a * b) mod uint_modulus.
Definition uint_add (a b : Z) : Z := (a + b) mod uint_modulus.

(** The value of type [int] congruent to [z] modulo 2^32: what converting
    an [unsigned int] to [int] yields, and what a two's-complement machine
    leaves in an [int] after [+=]. *)
Definition to_int (z : Z) : Z := (z + 2 ^ 31) mod uint_modulus - 2 ^ 31.

Definition int_add (a b : Z) : Z := to_int (a + b).

Definition is_int (z : Z) : Prop := int_min <= z <= int_max.

End Ints.
Import Ints.

(** ** Work-partitioning helpers *)

(** The built-in variables of device code.  Their types ([uint3], [dim3])
    are declared by the CUDA headers, not by hemi.h: every component is an
    [unsigned int]. *)
Module Cuda.
Record uint3 : Type := { x : Z; y : Z; z : Z }.
Definition dim3 : Type := uint3.
Record builtins : Type := {
  threadIdx : uint3;
  blockIdx : uint3;
  blockDim : dim3;
  gridDim : dim3
}.
End Cuda.
Import Cuda.

(** [int hemiGetElementOffset()] *)
Definition hemiGetElementOffset (b : build) (c : builtins) : Z :=
  if HEMI_DEV_CODE b
  then to_int (uint_add (uint_mul (x (blockIdx c)) (x (blockDim c)))
                        (x (threadIdx c)))
  else 0.

(** [int hemiGetElementStride()] *)
Definition hemiGetElementStride (b : build) (c : builtins) : Z :=
  if HEMI_DEV_CODE b
  then to_int (uint_mul (x (blockDim c)) (x (gridDim c)))
  else 1.

(** The loop of the usage note,
    [for (int idx = offset; idx < N; idx += stride) processElement(.., idx, ..)],
    with the body abstracted to recording the index it is handed.  [idx],
    [offset] and [stride] are [int] as the note declares them, and so is
    the element count [N]; [idx += stride] is the two's-complement addition
    of host and device (ISO C++ leaves an [int] overflow undefined, so a
    loop that reaches one has no guaranteed behaviour at all).  The result
    lists the indices in the order they are processed; [None] means the
    fuel ran out before the loop condition became false. *)
Fixpoint strided_loop (fuel : nat) (N stride idx : Z) : option (list Z) :=
  if idx <? N then
    match fuel with
    | O => None
    | S fuel' =>
        option_map (cons idx) (strided_loop fuel' N stride (int_add idx stride))
    end
  else Some [].

(** The loop started at [offset] runs to completion and has processed
    exactly [l], however much fuel beyond some bound it is given. *)
Definition loop_visits (N stride offset : Z) (l : list Z) : Prop :=
  exists fuel0 : nat,
    forall fuel : nat, (fuel0 <= fuel)%nat ->
      strided_loop fuel N stride offset = Some l.

(** The indices [lo, lo+1, ..., hi-1] in ascending order. *)
Definition ascending (lo hi : Z) : list Z :=
  map (fun k : nat => lo + Z.of_nat k) (seq 0 (Z.to_nat (hi - lo))).

(** What it means for [T] threads, thread [t] starting at offset [t] with
    stride [T], to share out [N] elements: every loop finishes, no index
    is processed by two threads or twice by one, the indices processed are
    exactly those of [0, N), and a thread that starts at or beyond [N]
    does nothing. *)
Definition grid_stride_partition (N T : Z) : Prop :=
  exists visited : Z -> list Z,
    (forall t, 0 <= t < T -> loop_visits N T t (visited t))
    /\ (forall t t' i, 0 <= t < T -> 0 <= t' < T ->
          In i (visited t) -> In i (visited t') -> t = t')
    /\ (forall t, 0 <= t < T -> NoDup (visited t))
    /\ (forall i, (exists t, 0 <= t < T /\ In i (visited t)) <-> 0 <= i < N)
    /\ (forall t, 0 <= t < T -> N <= t -> visited t = []).

(** ** Error-check helpers *)

(** [cudaError_t] is the runtime's status enumeration; [cudaSuccess] is its
    zero enumerator and the only one that is not a failure. *)
Definition cudaError_t : Type := Z.
Definition cudaSuccess : cudaError_t := 0.

(** The part of the CUDA runtime API the helpers call.  It is declared in
    cuda_runtime_api.h, outside this header, so it is an interface here:
    the two stateful calls transform an opaque device-and-thread state and
    hand back a status, [cudaGetErrorString] is a pure table lookup. *)
Class CudaRuntime : Type := {
  device : Type;
  cudaDeviceSynchronize : device -> cudaError_t * device;
  cudaGetLastError : device -> cudaError_t * device;
  cudaGetErrorString : cudaError_t -> string
}.

(** What the documentation of the runtime promises about a failed
    synchronisation: the status it returns is also recorded as the last
    error, so the query that follows reports a failure too. *)
Class CudaRuntimeLaws (R : CudaRuntime) : Prop := {
  sync_error_is_recorded :
    forall d r d',
      cudaDeviceSynchronize d = (r, d') -> r <> cudaSuccess ->
      fst (cudaGetLastError d') <> cudaSuccess
}.

(** Everything a call can do that is visible from outside it. *)
Inductive event : Type :=
| Stderr (text : string)            (* fprintf(stderr, ...) *)
| DeviceSynchronized                (* cudaDeviceSynchronize() was called *)
| LastErrorQueried                  (* cudaGetLastError() was called *)
| AssertionFailed (expr : string).  (* assert(expr) failed: abort() *)

Definition newline : string := String (Ascii.ascii_of_nat 10) EmptyString.

Section Effects.
Context {R : CudaRuntime}.

(** The runtime state and the events so far, oldest first. *)
Record world : Type := { dev : device; trace : list event }.

Definition emit (e : event) (w : world) : world :=
  {| dev := dev w; trace := trace w ++ [e] |}.

(** A call either returns a value or ends the process. *)
Inductive outcome (A : Type) : Type :=
| Returned (a : A) (w : world)
| Aborted (w : world).
Arguments Returned {A} a w.
Arguments Aborted {A} w.

Definition M (A : Type) : Type := world -> outcome A.

Definition ret {A} (a : A) : M A := fun w => Returned a w.

Definition bind {A B} (m : M A) (k : A -> M B) : M B :=
  fun w => match m w with
           | Returned a w' => k a w'
           | Aborted w' => Aborted w'
           end.

Definition fprintf_stderr (text : string) : M unit :=
  fun w => Returned tt (emit (Stderr text) w).

(** [assert(cond)] of <assert.h>: nothing at all when [NDEBUG] is defined;
    otherwise a false condition reports the failed expression and calls
    [abort()]. *)
Definition assert (b : build) (cond : bool) (expr : string) : M unit :=
  fun w => if NDEBUG b then Returned tt w
           else if cond then Returned tt w
           else Aborted (emit (AssertionFailed expr) w).

Definition call_cudaDeviceSynchronize : M cudaError_t :=
  fun w => let (r, d) := cudaDeviceSynchronize (dev w) in
           Returned r (emit DeviceSynchronized {| dev := d; trace := trace w |}).

Definition call_cudaGetLastError : M cudaError_t :=
  fun w => let (r, d) := cudaGetLastError (dev w) in
           Returned r (emit LastErrorQueried {| dev := d; trace := trace w |}).

Definition when (c : bool) (m : M unit) : M unit := if c then m else ret tt.

Definition is_failure (r : cudaError_t) : bool := negb (r =? cudaSuccess).

Definition runtime_error_message (r : cudaError_t) : string :=
  ("CUDA Runtime Error: " ++ cudaGetErrorString r ++ newline)%string.

Definition launch_error_message (r : cudaError_t) : string :=
  ("CUDA Launch Error: " ++ cudaGetErrorString r ++ newline)%string.

(** [cudaError_t checkCuda(cudaError_t result)] *)
Definition checkCuda (b : build) (result : cudaError_t) : M cudaError_t :=
  bind (when (debug_enabled b)
          (when (is_failure result)
             (bind (fprintf_stderr (runtime_error_message result)) (fun _ =>
              assert b (result =? cudaSuccess) "result == cudaSuccess"))))
       (fun _ => ret result).

(** [cudaError_t checkCudaErrors()] *)
Definition checkCudaErrors (b : build) : M cudaError_t :=
  let result := cudaSuccess in
  if debug_enabled b then
    bind call_cudaDeviceSynchronize (fun result =>
    bind (when (is_failure result)
            (fprintf_stderr (launch_error_message result))) (fun _ =>
    bind call_cudaGetLastError (fun result =>
    bind (checkCuda b result) (fun _ =>
    ret result))))
  else ret result.

(** What an observer of the process sees of an outcome: the value
    returned, if the call returned, and the output and termination
    events. *)
Definition visible (e : event) : bool :=
  match e with
  | Stderr _ | AssertionFailed _ => true
  | DeviceSynchronized | LastErrorQueried => false
  end.

Definition result_of {A} (o : outcome A) : option A :=
  match o with Returned a _ => Some a | Aborted _ => None end.

Definition final_world {A} (o : outcome A) : world :=
  match o with Returned _ w => w | Aborted w => w end.

Definition observe {A} (o : outcome A) : option A * list event :=
  (result_of o, filter visible (trace (final_world o))).

(** The failure path of [checkCuda] in a debug build: one line on stderr,
    then the failed assertion. *)
Definition print_and_abort (r : cudaError_t) (w : world) : outcome cudaError_t :=
  Aborted (emit (AssertionFailed "result == cudaSuccess")
                (emit (Stderr (runtime_error_message r)) w)).

(** The same path with the assertion compiled out: the line on stderr,
    and the status handed back. *)
Definition print_and_return (r : cudaError_t) (w : world) : outcome cudaError_t :=
  Returned r (emit (Stderr (runtime_error_message r)) w).

(** What a debug build's [checkCuda] does with a failure status. *)
Definition report_failure (b : build) (r : cudaError_t) (w : world)
  : outcome cudaError_t :=
  if NDEBUG b then print_and_return r w else print_and_abort r w.


(** The world after the synchronisation and the error query of a debug
    [checkCudaErrors]: [r] is what the synchronisation returned, [d] the
    runtime state after the query. *)
Definition after_sync_and_query (w : world) (r : cudaError_t) (d : device) : world :=
  {| dev := d;
     trace := trace w
              ++ [DeviceSynchronized]
              ++ (if is_failure r then [Stderr (launch_error_message r)] else [])
              ++ [LastErrorQueried] |}.

(** [sub] occurs in [s]. *)
Definition contains (sub s : string) : Prop :=
  exists pre post : string, s = (pre ++ sub ++ post)%string.

End Effects.

Arguments Returned {R A} a w.
Arguments Aborted {R A} w.

(** A small executable runtime: the state is the completion status of the
    work still outstanding on the device and the last error recorded for
    the calling thread.  Synchronising drains the work and records the
    first failure among it; querying the last error clears it. *)
Module SimRuntime.

Record state : Type := { pending : list cudaError_t; last_error : cudaError_t }.

Definition first_failure (l : list cudaError_t) : cudaError_t :=
  match find (fun r => negb (r =? cudaSuccess)) l with
  | Some r => r
  | None => cudaSuccess
  end.

Definition synchronize (s : state) : cudaError_t * state :=
  let r := first_failure (pending s) in
  (r, {| pending := [];
         last_error := if r =? cudaSuccess then last_error s else r |}).

Definition get_last_error (s : state) : cudaError_t * state :=
  (last_error s, {| pending := pending s; last_error := cudaSuccess |}).

Definition error_string (r : cudaError_t) : string :=
  if r =? 0 then "no error"%string
  else if r =? 1 then "invalid argument"%string
  else if r =? 2 then "out of memory"%string
  else "unspecified launch failure"%string.

#[export] Instance runtime : CudaRuntime := {|
  device := state;
  cudaDeviceSynchronize := synchronize;
  cudaGetLastError := get_last_error;
  cudaGetErrorString := error_string
|}.

Definition idle : state := {| pending := []; last_error := cudaSuccess |}.


(** A device on which one of two outstanding kernels has run out of memory. *)
Definition faulted : state := {| pending := [0; 2]; last_error := cudaSuccess |}.

Definition world_of (s : state) (tr : list event) : @world runtime :=
  @Build_world runtime s tr.

(** A fresh process on top of a given runtime state. *)
Definition start (s : state) : @world runtime := world_of s [].

End SimRuntime.


(** ** Macros *)

(** Preprocessing tokens.  A macro is embedded as the function from its
    arguments, each the token sequence the preprocessor collected for one
    parameter, to its replacement list under a given [build]. *)
Inductive token : Type :=
| Id (spelling : string)       (* identifier or keyword *)
| Punct (spelling : string)    (* punctuator *)
| Lit (spelling : string).     (* literal *)

Definition token_eqb (a b : token) : bool :=
  match a, b with
  | Id s, Id t | Punct s, Punct t | Lit s, Lit t => String.eqb s t
  | _, _ => false
  end.

(** [t ## suffix] on one token. *)
Definition paste_token (t : token) (suffix : string) : token :=
  match t with
  | Id s => Id (s ++ suffix)
  | Punct s => Punct (s ++ suffix)
  | Lit s => Lit (s ++ suffix)
  end.

(** [arg ## suffix] where [arg] is a macro argument: the suffix is pasted
    onto the last token of the argument, the others are left as they are;
    an empty argument leaves the suffix alone. *)
Fixpoint paste (arg : list token) (suffix : string) : list token :=
  match arg with
  | [] => [Id suffix]
  | [t] => [paste_token t suffix]
  | t :: rest => t :: paste rest suffix
  end.

Definition parens (ts : list token) : list token :=
  [Punct "("] ++ ts ++ [Punct ")"].

Section Macros.
Variable b : build.

(** [#define HEMI_KERNEL(name)] *)
Definition HEMI_KERNEL (name : string) : list token :=
  if __CUDACC__ b
  then [Id "__global__"; Id "void"] ++ paste [Id name] "_kernel"
  else [Id "void"; Id name].

(** [#define HEMI_KERNEL_NAME(name)] *)
Definition HEMI_KERNEL_NAME (name : string) : list token :=
  if __CUDACC__ b then paste [Id name] "_kernel" else [Id name].

(** [name ## _kernel<<< (gridDim), (blockDim), (sharedBytes), (streamId) >>>(__VA_ARGS__)] *)
Definition kernel_launch_expr (name : string)
    (gridDim blockDim sharedBytes streamId va_args : list token) : list token :=
  paste [Id name] "_kernel"
  ++ [Punct "<<<"] ++ parens gridDim
  ++ [Punct ","] ++ parens blockDim
  ++ [Punct ","] ++ parens sharedBytes
  ++ [Punct ","] ++ parens streamId
  ++ [Punct ">>>"] ++ parens va_args.

(** [#define HEMI_KERNEL_LAUNCH(name, gridDim, blockDim, sharedBytes, streamId, ...)] *)
Definition HEMI_KERNEL_LAUNCH (name : string)
    (gridDim blockDim sharedBytes streamId va_args : list token) : list token :=
  if __CUDACC__ b then
    if debug_enabled b then
      [Id "do"; Punct "{"]
      ++ kernel_launch_expr name gridDim blockDim sharedBytes streamId va_args
      ++ [Punct ";"; Id "checkCudaErrors"; Punct "("; Punct ")"; Punct ";";
          Punct "}"; Id "while"; Punct "("; Lit "0"; Punct ")"]
    else kernel_launch_expr name gridDim blockDim sharedBytes streamId va_args
  else [Id name] ++ parens va_args.

Definition HEMI_DEV_CALLABLE : list token :=
  if __CUDACC__ b then [Id "__host__"; Id "__device__"] else [].

Definition HEMI_DEV_CALLABLE_INLINE : list token :=
  if __CUDACC__ b then [Id "__host__"; Id "__device__"; Id "__forceinline__"]
  else [Id "static"; Id "inline"].

Definition HEMI_DEV_CALLABLE_MEMBER : list token :=
  if __CUDACC__ b then [Id "__host__"; Id "__device__"] else [].

Definition HEMI_DEV_CALLABLE_INLINE_MEMBER : list token :=
  if __CUDACC__ b then [Id "__host__"; Id "__device__"; Id "__forceinline__"]
  else [Id "inline"].

(** [#define HEMI_DEFINE_CONSTANT(def, value)]: two declarations, each
    closed by its semicolon, under the CUDA compiler; one declaration
    without a semicolon under a host compiler. *)
Definition HEMI_DEFINE_CONSTANT (def value : list token) : list token :=
  if __CUDACC__ b then
    [Id "__constant__"] ++ paste def "_devconst" ++ [Punct "="] ++ value
    ++ [Punct ";"]
    ++ [Id "static"] ++ paste def "_hostconst" ++ [Punct "="] ++ value
    ++ [Punct ";"]
  else
    [Id "static"] ++ paste def "_hostconst" ++ [Punct "="] ++ value.

(** [#define HEMI_DEV_CONSTANT(name)]: the host-compiler branch has no
    definition of this macro, hence the [option]. *)
Definition HEMI_DEV_CONSTANT (name : string) : option (list token) :=
  if __CUDACC__ b then Some (paste [Id name] "_devconst") else None.

(** [#define HEMI_CONSTANT(name)] *)
Definition HEMI_CONSTANT (name : string) : list token :=
  if __CUDACC__ b then
    if HEMI_DEV_CODE b
    then paste [Id name] "_devconst"
    else paste [Id name] "_hostconst"
  else paste [Id name] "_hostconst".

End Macros.

(** *** Reading the replacement lists *)

(** The function a declarator such as [__global__ void f_kernel] or
    [void f] introduces: its last identifier. *)
Definition declared_function (ts : list token) : option string :=
  match rev ts with
  | Id f :: _ => Some f
  | _ => None
  end.

(** The function named by an expression that is just an identifier. *)
Definition named_function (ts : list token) : option string :=
  match ts with
  | [Id f] => Some f
  | _ => None
  end.

Definition opens_call (t : token) : bool :=
  token_eqb t (Punct "(") || token_eqb t (Punct "<<<").

(** The function invoked by the first call in a token sequence: the first
    identifier that is directly followed by an argument list or by a launch
    configuration. *)
Fixpoint first_callee (ts : list token) : option string :=
  match ts with
  | [] => None
  | t :: rest =>
      match t, rest with
      | Id f, t' :: _ => if opens_call t' then Some f else first_callee rest
      | _, _ => first_callee rest
      end
  end.

(** The undecorated call [name(args)]. *)
Definition plain_call (name : string) (args : list token) : list token :=
  [Id name; Punct "("] ++ args ++ [Punct ")"].

(** A simple declaration [specifiers name = initializer]. *)
Record declaration : Type := {
  specifiers : list token;
  declared : string;
  initial_value : list token
}.

(** Cut a token sequence at its semicolons. *)
Fixpoint statements (ts : list token) : list (list token) :=
  match ts with
  | [] => [[]]
  | t :: ts' =>
      if token_eqb t (Punct ";") then [] :: statements ts'
      else match statements ts' with
           | s :: ss => (t :: s) :: ss
           | [] => [[t]]
           end
  end.

(** Cut a token sequence at its first [sep]. *)
Fixpoint break_at (sep : token) (ts : list token)
  : list token * option (list token) :=
  match ts with
  | [] => ([], None)
  | t :: ts' =>
      if token_eqb t sep then ([], Some ts')
      else let (before, after) := break_at sep ts' in (t :: before, after)
  end.

Definition read_declaration (ts : list token) : option declaration :=
  match break_at (Punct "=") ts with
  | (lhs, Some rhs) =>
      match rev lhs with
      | Id name :: front =>
          Some {| specifiers := rev front; declared := name; initial_value := rhs |}
      | _ => None
      end
  | (_, None) => None
  end.

(** The declarations of a translation-unit fragment, in order. *)
Definition declarations (ts : list token) : list declaration :=
  flat_map (fun s => match read_declaration s with
                     | Some d => [d]
                     | None => []
                     end)
           (statements ts).

Definition lookup (name : string) (ds : list declaration) : option declaration :=
  find (fun d => String.eqb (declared d) name) ds.

(** The initializer of the declaration that an expression names which is
    just the identifier of a declared constant.  (The value the object
    holds is the initializer converted to the declared type: see
    [read_value].) *)
Definition read_constant (expr : list token) (ds : list declaration)
  : option (list token) :=
  match expr with
  | [Id name] => option_map initial_value (lookup name ds)
  | _ => None
  end.

(** Whether a declaration places its object in device constant memory. *)
Definition in_constant_memory (d : declaration) : bool :=
  existsb (token_eqb (Id "__constant__")) (specifiers d).

(** Builds used as examples. *)
Definition host_release : build :=
  {| __CUDACC__ := false; __CUDA_ARCH__ := false; DEBUG := false; _DEBUG := false; NDEBUG := false |}.
Definition host_debug : build :=
  {| __CUDACC__ := false; __CUDA_ARCH__ := false; DEBUG := true; _DEBUG := false; NDEBUG := false |}.
Definition nvcc_host_pass : build :=
  {| __CUDACC__ := true; __CUDA_ARCH__ := false; DEBUG := false; _DEBUG := false; NDEBUG := false |}.
Definition nvcc_device_pass : build :=
  {| __CUDACC__ := true; __CUDA_ARCH__ := true; DEBUG := false; _DEBUG := false; NDEBUG := false |}.
Definition nvcc_debug : build :=
  {| __CUDACC__ := true; __CUDA_ARCH__ := false; DEBUG := false; _DEBUG := true;
     NDEBUG := false |}.
(** A build with [-DDEBUG -DNDEBUG]: the debug code of the header is
    compiled in, its assertion is compiled out. *)
Definition nvcc_debug_ndebug : build :=
  {| __CUDACC__ := true; __CUDA_ARCH__ := false; DEBUG := true; _DEBUG := false;
     NDEBUG := true |}.


(** ** The rest of the header *)

(** *** The loop, in closed form *)

(** How often the loop body runs when the loop starts at [idx]: the
    number of [idx + k * T] below [N]. *)
Definition iterations (N T idx : Z) : nat := Z.to_nat ((N - idx + T - 1) / T).

(** [idx, idx + T, idx + 2T, ...], [n] terms. *)
Definition progression (idx T : Z) (n : nat) : list Z :=
  map (fun k : nat => idx + Z.of_nat k * T) (seq 0 n).

(** The built-in variables seen by thread [tx] of block [bx] in a
    one-dimensional launch [<<<gd, bd>>>]. *)
Definition launch_thread (gd bd bx tx : Z) : builtins :=
  {| threadIdx := {| x := tx; y := 0; z := 0 |};
     blockIdx := {| x := bx; y := 0; z := 0 |};
     blockDim := {| x := bd; y := 1; z := 1 |};
     gridDim := {| x := gd; y := 1; z := 1 |} |}.

(** The loop of the usage note as a thread runs it: offset and stride
    come from the two helpers. *)
Definition thread_visits (b : build) (c : builtins) (N : Z) (l : list Z) : Prop :=
  loop_visits N (hemiGetElementStride b c) (hemiGetElementOffset b c) l.

(** *** [HEMI_VERSION] *)

Definition digit_value (c : Ascii.ascii) : option Z :=
  let n := Z.of_nat (Ascii.nat_of_ascii c) in
  if (48 <=? n) && (n <=? 57) then Some (n - 48)
  else if (97 <=? n) && (n <=? 102) then Some (n - 87)
  else if (65 <=? n) && (n <=? 70) then Some (n - 55)
  else None.

Fixpoint read_digits (base acc : Z) (s : string) : option Z :=
  match s with
  | EmptyString => Some acc
  | String c s' =>
      match digit_value c with
      | Some d => if d <? base then read_digits base (acc * base + d) s' else None
      | None => None
      end
  end.

Definition is_char (code : nat) (c : Ascii.ascii) : bool :=
  Nat.eqb (Ascii.nat_of_ascii c) code.

(** The value of an integer literal without suffix: hexadecimal after
    [0x] or [0X], octal after any other leading [0], decimal otherwise
    (48, 120 and 88 are the codes of [0], [x] and [X]). *)
Definition c_integer_literal (s : string) : option Z :=
  match s with
  | EmptyString => None
  | String _ EmptyString => read_digits 10 0 s
  | String c ((String c' s'') as s') =>
      if is_char 48 c then
        if is_char 120 c' || is_char 88 c' then
          match s'' with
          | EmptyString => None
          | _ => read_digits 16 0 s''
          end
        else read_digits 8 0 s'
      else read_digits 10 0 s
  end.

(** [#define HEMI_VERSION 000100] *)
Definition HEMI_VERSION_literal : string := "000100".

Definition HEMI_VERSION : Z :=
  match c_integer_literal HEMI_VERSION_literal with
  | Some v => v
  | None => 0
  end.

(** The decoding the comment above the definition gives. *)
Definition major_version (v : Z) : Z := v / 100000.
Definition minor_version (v : Z) : Z := v / 100 mod 1000.

(** *** [HEMI_DEV_ALIGN] *)

(** [#define HEMI_DEV_ALIGN(n)]: [__align__(n)] under the CUDA compiler;
    under a host compiler the GNU attribute if [__GNUC__] is defined, else
    the Microsoft one if [_MSC_VER] is, else no definition (the header
    stops with [#error]). *)
Definition HEMI_DEV_ALIGN (b : build) (__GNUC__ _MSC_VER : bool) (n : list token)
  : option (list token) :=
  if __CUDACC__ b then Some ([Id "__align__"] ++ parens n)
  else if __GNUC__ then
    Some ([Id "__attribute__"] ++ parens (parens ([Id "aligned"] ++ parens n)))
  else if _MSC_VER then
    Some ([Id "__declspec"] ++ parens ([Id "align"] ++ parens n))
  else None.

(** *** Tokens only the CUDA compiler understands *)

Definition cuda_keywords : list string :=
  ["__global__"; "__host__"; "__device__"; "__constant__"; "__forceinline__";
   "__align__"]%string.

Definition cuda_punctuators : list string := ["<<<"; ">>>"]%string.

Definition cuda_only (t : token) : bool :=
  match t with
  | Id s => existsb (String.eqb s) cuda_keywords
  | Punct s => existsb (String.eqb s) cuda_punctuators
  | Lit _ => false
  end.

(** A token sequence a host compiler can be handed. *)
Definition host_clean (ts : list token) : bool := forallb (fun t => negb (cuda_only t)) ts.

Definition token_eq_dec (a b : token) : {a = b} + {a <> b}.
Proof. decide equality; apply string_dec. Defined.

(** How often [t] occurs in [ts]. *)
Definition occurrences (t : token) (ts : list token) : nat :=
  count_occ token_eq_dec ts t.

(** Whether a string ends in the character [c]. *)
Fixpoint ends_with (c : Ascii.ascii) (s : string) : bool :=
  match s with
  | EmptyString => false
  | String a EmptyString => Ascii.eqb a c
  | String _ s' => ends_with c s'
  end.

(** *** The directive skeleton of the header *)

Module Header.

(** The preprocessor's state: the names of the macros defined so far. *)
Definition macro_env : Type := list string.

Definition defined (env : macro_env) (m : string) : bool :=
  existsb (String.eqb m) env.

Definition define (m : string) (env : macro_env) : macro_env := m :: env.

Definition define_all (ms : list string) (env : macro_env) : macro_env :=
  fold_left (fun e m => define m e) ms env.

(** The result of [#include "hemi.h"]: the macros defined afterwards and
    the functions the inclusion has added to the translation unit, or the
    message of the [#error] directive reached. *)
Inductive inclusion : Type :=
| Included (env : macro_env) (functions : list string)
| Failed (message : string).

(** The macros both branches of [#ifdef __CUDACC__] define. *)
Definition portable_macros : list string :=
  ["HEMI_LOC_STRING"; "HEMI_KERNEL"; "HEMI_KERNEL_NAME"; "HEMI_KERNEL_LAUNCH";
   "HEMI_DEV_CALLABLE"; "HEMI_DEV_CALLABLE_INLINE"; "HEMI_DEV_CALLABLE_MEMBER";
   "HEMI_DEV_CALLABLE_INLINE_MEMBER"; "HEMI_DEFINE_CONSTANT"; "HEMI_CONSTANT"]%string.

Definition inline_functions : list string :=
  ["checkCuda"; "checkCudaErrors"; "hemiGetElementOffset"; "hemiGetElementStride"]%string.

Definition align_error : string :=
  "Please provide a definition for HEMI_DEV_ALIGN macro for your host compiler!".

(** The [#define]s of the [#ifdef __CUDACC__] branch after the optional
    one of [HEMI_DEV_CODE], and those of the [#else] branch before the
    choice of [HEMI_DEV_ALIGN], in the order of the header. *)
Definition cuda_branch_macros : list string :=
  ["HEMI_KERNEL"; "HEMI_KERNEL_NAME"; "HEMI_KERNEL_LAUNCH";
   "HEMI_DEV_CALLABLE"; "HEMI_DEV_CALLABLE_INLINE"; "HEMI_DEV_CALLABLE_MEMBER";
   "HEMI_DEV_CALLABLE_INLINE_MEMBER"; "HEMI_DEFINE_CONSTANT"; "HEMI_DEV_CONSTANT";
   "HEMI_CONSTANT"; "HEMI_DEV_ALIGN"]%string.

Definition host_branch_macros : list string :=
  ["HEMI_HOST_COMPILER"; "HEMI_LOC_STRING"; "HEMI_KERNEL"; "HEMI_KERNEL_NAME";
   "HEMI_KERNEL_LAUNCH"; "HEMI_DEV_CALLABLE"; "HEMI_DEV_CALLABLE_INLINE";
   "HEMI_DEV_CALLABLE_MEMBER"; "HEMI_DEV_CALLABLE_INLINE_MEMBER"; "HEMI_CONSTANT";
   "HEMI_DEFINE_CONSTANT"]%string.

(** Lines 40 to 183, directive by directive. *)
Definition include_hemi (env : macro_env) : inclusion :=
  if defined env "__HEMI_H__" then Included env []
  else
    let env := define "HEMI_VERSION" (define "__HEMI_H__" env) in
    if defined env "__CUDACC__" then
      let env := define "HEMI_LOC_STRING" (define "HEMI_CUDA_COMPILER" env) in
      let env := if defined env "__CUDA_ARCH__" then define "HEMI_DEV_CODE" env else env in
      Included (define_all cuda_branch_macros env) inline_functions
    else
      let env := define_all host_branch_macros env in
      if defined env "__GNUC__" then
        Included (define "HEMI_DEV_ALIGN" env) inline_functions
      else if defined env "_MSC_VER" then
        Included (define "HEMI_DEV_ALIGN" env) inline_functions
      else Failed align_error.

(** The header's own names, none of which the including file is expected
    to have defined beforehand. *)
Definition header_names : list string :=
  ["__HEMI_H__"; "HEMI_VERSION"; "HEMI_CUDA_COMPILER"; "HEMI_HOST_COMPILER";
   "HEMI_DEV_CODE"; "HEMI_DEV_CONSTANT"; "HEMI_DEV_ALIGN"]%string ++ portable_macros.

Definition fresh (env : macro_env) : bool :=
  forallb (fun m => negb (defined env m)) header_names.

(** The compilation mode a macro environment stands for. *)
Definition build_of (env : macro_env) : build :=
  {| __CUDACC__ := defined env "__CUDACC__";
     __CUDA_ARCH__ := defined env "__CUDA_ARCH__";
     DEBUG := defined env "DEBUG";
     _DEBUG := defined env "_DEBUG";
     NDEBUG := defined env "NDEBUG" |}.

End Header.


(** *** What a constant holds *)

(** The value an object has is not the text of its initializer but the
    initializer's value converted to the object's declared type.  Both
    steps belong to the language, not to the header, so they are an
    interface: [constant_expression] evaluates an initializer,
    [converted_to] performs the implicit conversion to a type. *)
Class InitializerSemantics : Type := {
  cvalue : Type;
  constant_expression : list token -> option cvalue;
  converted_to : list token -> cvalue -> option cvalue
}.

(** [static] and [__constant__] say where an object lives; what is left
    of the specifiers is its type. *)
Definition storage_class (t : token) : bool :=
  token_eqb t (Id "static") || token_eqb t (Id "__constant__").

Definition type_of (specs : list token) : list token :=
  filter (fun t => negb (storage_class t)) specs.

Section Values.
Context {S : InitializerSemantics}.

(** The value of [V] once it initializes an object of type [ty]. *)
Definition initialized (ty V : list token) : option cvalue :=
  match constant_expression V with
  | Some v => converted_to (type_of ty) v
  | None => None
  end.

(** The value the object of a declaration holds. *)
Definition object_value (d : declaration) : option cvalue :=
  initialized (specifiers d) (initial_value d).

(** The value read through an expression that is just the identifier of
    a declared constant. *)
Definition read_value (expr : list token) (ds : list declaration) : option cvalue :=
  match expr with
  | [Id name] =>
      match lookup name ds with
      | Some d => object_value d
      | None => None
      end
  | _ => None
  end.

End Values.

(** A small executable instance: integer and decimal literals, the types
    [int] and [double].  A decimal literal denotes the [double] it is
    spelled as; converting it to [int] drops the fraction. *)
Module SimValues.

Inductive number : Type :=
| IntV (n : Z)
| DecV (whole : Z) (fraction : string).

(** Cut a literal at its decimal point (code 46). *)
Fixpoint split_point (s : string) : string * option string :=
  match s with
  | EmptyString => (EmptyString, None)
  | String c s' =>
      if is_char 46 c then (EmptyString, Some s')
      else let (whole, fraction) := split_point s' in (String c whole, fraction)
  end.

Definition literal_value (s : string) : option number :=
  match split_point s with
  | (whole, None) => option_map IntV (c_integer_literal whole)
  | (whole, Some fraction) =>
      match read_digits 10 0 whole, read_digits 10 0 fraction with
      | Some n, Some _ => Some (DecV n fraction)
      | _, _ => None
      end
  end.

Definition evaluate (V : list token) : option number :=
  match V with
  | [Lit s] => literal_value s
  | _ => None
  end.

Definition convert (ty : list token) (v : number) : option number :=
  match ty with
  | [Id t] =>
      if String.eqb t "int" then
        match v with
        | IntV n => Some (IntV (to_int n))
        | DecV whole _ => Some (IntV (to_int whole))
        end
      else if String.eqb t "double" then
        match v with
        | IntV n => Some (DecV n "0")
        | DecV whole fraction => Some (DecV whole fraction)
        end
      else None
  | _ => None
  end.

#[export] Instance semantics : InitializerSemantics := {|
  cvalue := number;
  constant_expression := evaluate;
  converted_to := convert
|}.

End SimValues.

(** * Properties *)

(** ** Integer arithmetic *)

Lemma to_int_exact (v : Z) : is_int v -> to_int v = v.
Proof.
  unfold is_int, int_min, int_max, to_int, uint_modulus. intros Hv.
  rewrite Z.mod_small; lia.
Qed.

Lemma to_int_range (v : Z) : is_int (to_int v).
Proof.
  unfold is_int, int_min, int_max, to_int, uint_modulus.
  pose proof (Z.mod_pos_bound (v + 2 ^ 31) (2 ^ 32) ltac:(lia)). lia.
Qed.

Lemma to_int_mod (v : Z) : to_int (v mod uint_modulus) = to_int v.
Proof.
  unfold to_int, uint_modulus. f_equal.
  rewrite Zplus_mod_idemp_l. reflexivity.
Qed.

Lemma uint_add_mul (a b c : Z) :
  uint_add (uint_mul a b) c = (a * b + c) mod uint_modulus.
Proof.
  unfold uint_add, uint_mul. apply Zplus_mod_idemp_l.
Qed.

(** ** The work-partitioning helpers *)

(** C2 (as amended).  In the device pass [hemiGetElementOffset] returns
    [blockIdx.x * blockDim.x + threadIdx.x] and [hemiGetElementStride]
    returns [blockDim.x * gridDim.x], each as the [int] the 32-bit
    expression yields, which is the flattened index, respectively the
    thread count, whenever that number is an [int]; in every other pass
    they return 0 and 1. *)
Theorem hemi_offset_stride_values (b : build) (c : builtins) :
  let flat_index := x (blockIdx c) * x (blockDim c) + x (threadIdx c) in
  let thread_count := x (blockDim c) * x (gridDim c) in
  hemiGetElementOffset b c = (if HEMI_DEV_CODE b then to_int flat_index else 0)
  /\ hemiGetElementStride b c = (if HEMI_DEV_CODE b then to_int thread_count else 1)
  /\ is_int (hemiGetElementOffset b c) /\ is_int (hemiGetElementStride b c)
  /\ (HEMI_DEV_CODE b = true -> is_int flat_index ->
      hemiGetElementOffset b c = flat_index)
  /\ (HEMI_DEV_CODE b = true -> is_int thread_count ->
      hemiGetElementStride b c = thread_count).
Proof.
  cbv zeta. unfold hemiGetElementOffset, hemiGetElementStride.
  destruct (HEMI_DEV_CODE b).
  - rewrite uint_add_mul, to_int_mod. unfold uint_mul. rewrite to_int_mod.
    split; [reflexivity|]. split; [reflexivity|].
    split; [apply to_int_range|]. split; [apply to_int_range|].
    split; intros _ Hfit; apply to_int_exact, Hfit.
  - split; [reflexivity|]. split; [reflexivity|].
    split; [unfold is_int, int_min, int_max; lia|].
    split; [unfold is_int, int_min, int_max; lia|].
    split; intros; discriminate.
Qed.

Lemma hemi_offset_stride_values_witness :
  let c := {| threadIdx := {| x := 5; y := 0; z := 0 |};
              blockIdx := {| x := 3; y := 0; z := 0 |};
              blockDim := {| x := 256; y := 1; z := 1 |};
              gridDim := {| x := 8; y := 1; z := 1 |} |} in
  hemiGetElementOffset nvcc_device_pass c = 773
  /\ hemiGetElementStride nvcc_device_pass c = 2048.
Proof.
  intros c.
  destruct (hemi_offset_stride_values nvcc_device_pass c) as (_ & _ & _ & _ & Ho & Hs).
  split.
  - apply Ho; [reflexivity | unfold is_int, int_min, int_max; simpl; lia].
  - apply Hs; [reflexivity | unfold is_int, int_min, int_max; simpl; lia].
Defined.

(** C2 as stated fails once the numbers leave the range of [int]: a
    launch of 2097152 blocks of 1024 threads has 2^31 threads and gets the
    stride [-2^31]; in a launch of 4194304 such blocks, thread 0 of block
    2097152 has the flattened index 2^31 and gets the offset [-2^31]. *)
Lemma stride_and_offset_leave_int_range :
  HEMI_DEV_CODE nvcc_device_pass = true
  /\ hemiGetElementStride nvcc_device_pass (launch_thread 2097152 1024 0 0)
     = -2147483648
  /\ hemiGetElementOffset nvcc_device_pass (launch_thread 4194304 1024 2097152 0)
     = -2147483648
  /\ ~ (forall b c, HEMI_DEV_CODE b = true ->
          hemiGetElementStride b c = x (blockDim c) * x (gridDim c))
  /\ ~ (forall b c, HEMI_DEV_CODE b = true ->
          hemiGetElementOffset b c
          = x (blockIdx c) * x (blockDim c) + x (threadIdx c)).
Proof.
  split; [reflexivity|]. split; [reflexivity|]. split; [reflexivity|]. split.
  - intros H.
    specialize (H nvcc_device_pass (launch_thread 2097152 1024 0 0) eq_refl).
    discriminate.
  - intros H.
    specialize (H nvcc_device_pass (launch_thread 4194304 1024 2097152 0) eq_refl).
    discriminate.
Qed.

(** In a one-dimensional launch whose thread count is an [int], the
    offsets of the launched threads are below the stride and determine the
    thread: block and thread index are quotient and remainder of the
    offset by the block size.  So the threads start at the offsets
    0, 1, ..., T-1, each taken by one thread, with T the stride. *)
Lemma device_offsets_enumerate_threads (b : build) (c : builtins) :
  HEMI_DEV_CODE b = true ->
  0 <= x (threadIdx c) < x (blockDim c) ->
  0 <= x (blockIdx c) < x (gridDim c) ->
  x (blockDim c) * x (gridDim c) <= int_max ->
  hemiGetElementStride b c = x (blockDim c) * x (gridDim c)
  /\ 0 <= hemiGetElementOffset b c < hemiGetElementStride b c
  /\ x (blockIdx c) = hemiGetElementOffset b c / x (blockDim c)
  /\ x (threadIdx c) = hemiGetElementOffset b c mod x (blockDim c).
Proof.
  intros Hdev Ht Hb Hfit.
  unfold hemiGetElementOffset, hemiGetElementStride. rewrite Hdev.
  rewrite uint_add_mul, to_int_mod. unfold uint_mul. rewrite to_int_mod.
  unfold int_max in Hfit.
  assert (Hlt : x (blockIdx c) * x (blockDim c) + x (threadIdx c)
                < x (blockDim c) * x (gridDim c)) by nia.
  rewrite !to_int_exact by (unfold is_int, int_min, int_max; nia).
  split; [reflexivity|]. split; [nia|]. split.
  - apply (Z.div_unique_pos _ _ _ (x (threadIdx c))); lia.
  - apply (Z.mod_unique_pos _ _ (x (blockIdx c))); lia.
Qed.

(** ** The grid-strided loop *)

Lemma strided_loop_exit (fuel : nat) (N stride idx : Z) :
  N <= idx -> strided_loop fuel N stride idx = Some [].
Proof.
  intros H. destruct fuel; simpl; destruct (Z.ltb_spec idx N); try lia; reflexivity.
Qed.

Lemma strided_loop_step (fuel : nat) (N stride idx : Z) :
  idx < N ->
  strided_loop (S fuel) N stride idx =
  option_map (cons idx) (strided_loop fuel N stride (int_add idx stride)).
Proof.
  intros H. simpl. destruct (Z.ltb_spec idx N); [reflexivity | lia].
Qed.

(** More fuel never changes the result of a loop that finished. *)
Lemma strided_loop_fuel_mono (fuel fuel' : nat) (N stride idx : Z) (l : list Z) :
  (fuel <= fuel')%nat ->
  strided_loop fuel N stride idx = Some l ->
  strided_loop fuel' N stride idx = Some l.
Proof.
  revert fuel' idx l.
  induction fuel as [|fuel IH]; intros fuel' idx l Hle Hrun.
  - simpl in Hrun. destruct (Z.ltb_spec idx N); [discriminate|].
    rewrite strided_loop_exit by lia. exact Hrun.
  - destruct (Z_lt_ge_dec idx N) as [Hlt|Hge].
    + destruct fuel' as [|fuel']; [lia|].
      rewrite strided_loop_step in * by assumption.
      destruct (strided_loop fuel N stride (int_add idx stride)) as [l'|] eqn:E;
        [|discriminate].
      rewrite (IH fuel' _ l') by (assumption || lia). exact Hrun.
    + rewrite strided_loop_exit in * by lia. exact Hrun.
Qed.

(** A multiple of [T] strictly above zero is at least [T]. *)
Lemma positive_multiple_ge (T d : Z) :
  1 <= T -> 0 < d -> d mod T = 0 -> T <= d.
Proof.
  intros HT Hd Hm.
  pose proof (Z.div_mod d T ltac:(lia)) as E. rewrite Hm in E.
  assert (0 < d / T) by nia. nia.
Qed.

(** The loop without overflow: it finishes within [N - idx] iterations
    and processes exactly the indices of [idx, N) that differ from [idx]
    by a multiple of the stride, each once. *)
Lemma strided_loop_run (fuel : nat) (N T : Z) :
  1 <= T -> N = 0 \/ N + T <= 2 ^ 31 ->
  forall idx, 0 <= idx -> (Z.to_nat (N - idx) <= fuel)%nat ->
  exists l,
    strided_loop fuel N T idx = Some l
    /\ (forall i, In i l <-> idx <= i < N /\ (i - idx) mod T = 0)
    /\ NoDup l.
Proof.
  intros HT Hfit.
  induction fuel as [|fuel IH]; intros idx Hidx Hfuel.
  - exists []. rewrite strided_loop_exit by lia.
    split; [reflexivity|]. split; [|apply NoDup_nil].
    intros i. simpl. lia.
  - destruct (Z_lt_ge_dec idx N) as [Hlt|Hge].
    + assert (Hnext : int_add idx T = idx + T).
      { apply to_int_exact. unfold is_int, int_min, int_max. lia. }
      rewrite strided_loop_step, Hnext by assumption.
      destruct (IH (idx + T)) as (l & Hrun & Hin & Hnd); [lia | lia |].
      exists (idx :: l). rewrite Hrun. split; [reflexivity|]. split.
      * intros i. simpl. rewrite Hin. split.
        -- intros [<- | [Hr Hm]].
           ++ rewrite Z.sub_diag, Z.mod_0_l by lia. lia.
           ++ split; [lia|].
              replace (i - idx) with (i - (idx + T) + 1 * T) by lia.
              rewrite Z_mod_plus_full. exact Hm.
        -- intros [Hr Hm].
           destruct (Z.eq_dec idx i) as [->|Hne]; [left; reflexivity | right].
           pose proof (positive_multiple_ge T (i - idx) HT ltac:(lia) Hm).
           split; [lia|].
           replace (i - (idx + T)) with (i - idx + (-1) * T) by lia.
           rewrite Z_mod_plus_full. exact Hm.
      * constructor; [|exact Hnd]. rewrite Hin. lia.
    + exists []. rewrite strided_loop_exit by lia.
      split; [reflexivity|]. split; [|apply NoDup_nil].
    intros i. simpl. lia.
Qed.

Lemma ascending_nil (lo hi : Z) : hi <= lo -> ascending lo hi = [].
Proof.
  intros H. unfold ascending. replace (Z.to_nat (hi - lo)) with O by lia.
  reflexivity.
Qed.

Lemma ascending_cons (lo hi : Z) :
  lo < hi -> ascending lo hi = lo :: ascending (lo + 1) hi.
Proof.
  intros H. unfold ascending.
  replace (Z.to_nat (hi - lo)) with (S (Z.to_nat (hi - (lo + 1)))) by lia.
  simpl. f_equal; [lia|].
  rewrite <- seq_shift, map_map. apply map_ext. intros k. lia.
Qed.

(** The host loop (offset 0, stride 1) is the plain sequential scan. *)
Lemma strided_loop_sequential (fuel : nat) (N : Z) :
  N <= int_max ->
  forall idx, is_int idx -> (Z.to_nat (N - idx) <= fuel)%nat ->
  strided_loop fuel N 1 idx = Some (ascending idx N).
Proof.
  intros HN. unfold is_int, int_min, int_max in *.
  induction fuel as [|fuel IH]; intros idx Hidx Hfuel.
  - rewrite strided_loop_exit, ascending_nil by lia. reflexivity.
  - destruct (Z_lt_ge_dec idx N) as [Hlt|Hge].
    + rewrite strided_loop_step by assumption.
      unfold int_add. rewrite to_int_exact by (unfold is_int, int_min, int_max; lia).
      rewrite IH, (ascending_cons idx N) by lia. reflexivity.
    + rewrite strided_loop_exit, ascending_nil by lia. reflexivity.
Qed.

(** Two offsets below [T] that reach the same index are the same thread. *)
Lemma same_residue (T t t' i : Z) :
  0 <= t < T -> 0 <= t' < T ->
  (i - t) mod T = 0 -> (i - t') mod T = 0 -> t = t'.
Proof.
  intros Ht Ht' H H'.
  assert (R : forall u, 0 <= u < T -> (i - u) mod T = 0 -> i mod T = u).
  { intros u Hu Hm.
    pose proof (Z.div_mod (i - u) T ltac:(lia)) as E. rewrite Hm in E.
    replace i with (u + (i - u) / T * T) by lia.
    rewrite Z_mod_plus_full. apply Z.mod_small. exact Hu. }
  rewrite <- (R t Ht H). apply R; assumption.
Qed.

(** C1 (as amended).  For element counts [N >= 0] and thread counts
    [T >= 1] of type [int] such that [idx += T] cannot leave the range of
    [int] before the loop condition fails ([N = 0] or [N + T <= 2^31]), the
    loops [for (idx = t; idx < N; idx += T)] of the threads [t] in [0, T)
    all finish, process pairwise disjoint sets of indices, each index at
    most once, whose union is exactly [0, N), and a thread with [t >= N]
    processes nothing; with the offset 0 and stride 1 that the helpers
    return outside device code the loop processes 0, 1, ..., N-1 in
    ascending order. *)
Theorem grid_stride_loop_partition (N T : Z) :
  0 <= N <= int_max -> 1 <= T <= int_max -> N = 0 \/ N + T <= 2 ^ 31 ->
  grid_stride_partition N T
  /\ (forall b c, HEMI_DEV_CODE b = false ->
        loop_visits N (hemiGetElementStride b c) (hemiGetElementOffset b c)
                    (ascending 0 N)).
Proof.
  intros HN HT Hfit. split.
  - set (visited := fun t => match strided_loop (Z.to_nat N) N T t with
                             | Some l => l
                             | None => []
                             end).
    assert (Hspec : forall t, 0 <= t < T ->
              strided_loop (Z.to_nat N) N T t = Some (visited t)
              /\ (forall i, In i (visited t) <-> t <= i < N /\ (i - t) mod T = 0)
              /\ NoDup (visited t)).
    { intros t Ht.
      destruct (strided_loop_run (Z.to_nat N) N T ltac:(lia) Hfit t ltac:(lia) ltac:(lia))
        as (l & Hrun & Hin & Hnd).
      unfold visited. rewrite Hrun. auto. }
    exists visited. repeat apply conj.
    + intros t Ht. exists (Z.to_nat N). intros fuel Hfuel.
      apply (strided_loop_fuel_mono (Z.to_nat N)); [exact Hfuel|].
      apply Hspec, Ht.
    + intros t t' i Ht Ht' Hi Hi'.
      apply (proj1 (proj2 (Hspec t Ht))) in Hi.
      apply (proj1 (proj2 (Hspec t' Ht'))) in Hi'.
      apply (same_residue T t t' i); tauto.
    + intros t Ht. apply Hspec, Ht.
    + intros i. split.
      * intros (t & Ht & Hi). apply (proj1 (proj2 (Hspec t Ht))) in Hi. lia.
      * intros Hi. exists (i mod T).
        pose proof (Z.mod_pos_bound i T ltac:(lia)) as Hb.
        pose proof (Z.div_mod i T ltac:(lia)) as E.
        pose proof (Z.div_pos i T ltac:(lia) ltac:(lia)) as Hq.
        split; [exact Hb|]. apply (proj1 (proj2 (Hspec _ Hb))).
        split; [nia|].
        replace (i - i mod T) with (0 + i / T * T) by lia.
        rewrite Z_mod_plus_full. apply Z.mod_0_l. lia.
    + intros t Ht Hge.
      destruct (Hspec t Ht) as (Hrun & _ & _).
      rewrite strided_loop_exit in Hrun by lia. congruence.
  - intros b c Hhost. unfold hemiGetElementStride, hemiGetElementOffset.
    rewrite Hhost. exists (Z.to_nat N). intros fuel Hfuel.
    apply strided_loop_sequential; unfold is_int, int_min, int_max in *; lia.
Qed.

Lemma grid_stride_loop_partition_witness :
  grid_stride_partition 10 4
  /\ (forall b c, HEMI_DEV_CODE b = false ->
        loop_visits 10 (hemiGetElementStride b c) (hemiGetElementOffset b c)
                    (ascending 0 10)).
Proof.
  apply (grid_stride_loop_partition 10 4); unfold int_max; lia.
Defined.

(** C1 as stated fails for [int] operands: with [N = T = 2^31 - 1], thread 1
    processes index 1 and [idx += T] then leaves the range of [int]; the
    wrapped value [-2^31] is below [N], so the loop goes on to process an
    index outside [0, N). *)
Lemma grid_stride_partition_overflow :
  0 <= 2147483647 <= int_max /\ 1 <= 2147483647 <= int_max
  /\ ~ grid_stride_partition 2147483647 2147483647.
Proof.
  split; [unfold int_max; lia|]. split; [unfold int_max; lia|].
  intros (visited & Hrun & _ & _ & Hcover & _).
  destruct (Hrun 1) as [fuel0 Hfuel]; [lia|].
  specialize (Hfuel (S (S fuel0)) ltac:(lia)).
  rewrite strided_loop_step in Hfuel by lia.
  change (int_add 1 2147483647) with (-2147483648) in Hfuel.
  rewrite strided_loop_step in Hfuel by lia.
  destruct (strided_loop fuel0 _ _ _) as [l|]; [|discriminate].
  injection Hfuel as Hv.
  assert (H : 0 <= -2147483648 < 2147483647).
  { apply Hcover. exists 1. split; [lia|]. rewrite <- Hv. simpl. auto. }
  lia.
Qed.

(** The four-thread scenario over ten elements. *)
Example four_threads_ten_elements :
  strided_loop 3 10 4 0 = Some [0; 4; 8]
  /\ strided_loop 3 10 4 1 = Some [1; 5; 9]
  /\ strided_loop 3 10 4 2 = Some [2; 6]
  /\ strided_loop 3 10 4 3 = Some [3; 7].
Proof. repeat split. Qed.

(** ** The error-check helpers *)

Section ErrorChecks.
Context {R : CudaRuntime}.

Lemma is_failure_true (r : cudaError_t) : r <> cudaSuccess -> is_failure r = true.
Proof.
  intros H. unfold is_failure. destruct (Z.eqb_spec r cudaSuccess); [contradiction | reflexivity].
Qed.

Lemma is_failure_false (r : cudaError_t) : is_failure r = false -> r = cudaSuccess.
Proof.
  unfold is_failure. destruct (Z.eqb_spec r cudaSuccess); [auto | discriminate].
Qed.

Lemma checkCuda_debug (b : build) (r : cudaError_t) (w : world) :
  debug_enabled b = true ->
  checkCuda b r w = if is_failure r then report_failure b r w else Returned r w.
Proof.
  intros Hd.
  unfold checkCuda, bind, when, assert, report_failure, print_and_abort,
    print_and_return, fprintf_stderr.
  rewrite Hd. unfold is_failure.
  destruct (Z.eqb_spec r cudaSuccess); destruct (NDEBUG b); reflexivity.
Qed.

Lemma checkCuda_release (b : build) (r : cudaError_t) (w : world) :
  debug_enabled b = false -> checkCuda b r w = Returned r w.
Proof.
  intros Hd. unfold checkCuda, bind, when. rewrite Hd. reflexivity.
Qed.

Lemma message_contains_error_string (r : cudaError_t) :
  contains (cudaGetErrorString r) (runtime_error_message r).
Proof.
  exists "CUDA Runtime Error: "%string, newline. reflexivity.
Qed.

(** C3 (as amended).  On a failure status, [checkCuda] in a debug build
    prints a line that contains the runtime's string for the status; it
    then ends the process through the failed assertion if assertions are
    enabled, and returns the status if [NDEBUG] has compiled the assertion
    out.  In a non-debug build it returns the status and leaves the world
    as it was. *)
Theorem checkCuda_failure (b : build) (r : cudaError_t) (w : world) :
  r <> cudaSuccess ->
  (debug_enabled b = true ->
     exists text : string,
       contains (cudaGetErrorString r) text
       /\ checkCuda b r w =
          if NDEBUG b
          then Returned r {| dev := dev w; trace := trace w ++ [Stderr text] |}
          else Aborted {| dev := dev w;
                          trace := trace w ++ [Stderr text;
                                               AssertionFailed "result == cudaSuccess"] |})
  /\ (debug_enabled b = false -> checkCuda b r w = Returned r w).
Proof.
  intros Hr. split; intros Hd.
  - exists (runtime_error_message r). split.
    + apply message_contains_error_string.
    + rewrite checkCuda_debug, is_failure_true by assumption.
      unfold report_failure, print_and_abort, print_and_return, emit.
      destruct (NDEBUG b); simpl; rewrite <- ?app_assoc; reflexivity.
  - apply checkCuda_release, Hd.
Qed.

(** C5.  On the success status [checkCuda] returns it and leaves the world
    as it was, whatever the build. *)
Theorem checkCuda_success (b : build) (w : world) :
  checkCuda b cudaSuccess w = Returned cudaSuccess w.
Proof.
  destruct (debug_enabled b) eqn:Hd.
  - rewrite checkCuda_debug by assumption. reflexivity.
  - apply checkCuda_release, Hd.
Qed.

Lemma checkCudaErrors_debug (b : build) (w : world) :
  debug_enabled b = true ->
  forall r d1 e d2,
    cudaDeviceSynchronize (dev w) = (r, d1) ->
    cudaGetLastError d1 = (e, d2) ->
    checkCudaErrors b w =
    if is_failure e then report_failure b e (after_sync_and_query w r d2)
    else Returned e (after_sync_and_query w r d2).
Proof.
  intros Hd r d1 e d2 Hs Hq.
  unfold checkCudaErrors. rewrite Hd.
  unfold bind at 1. unfold call_cudaDeviceSynchronize. rewrite Hs.
  unfold bind at 1. unfold when, fprintf_stderr, ret.
  assert (Hw : forall w1 : world,
             dev w1 = d1 ->
             bind call_cudaGetLastError
               (fun result => bind (checkCuda b result) (fun _ w' => Returned result w')) w1
             = if is_failure e
               then report_failure b e (emit LastErrorQueried {| dev := d2; trace := trace w1 |})
               else Returned e (emit LastErrorQueried {| dev := d2; trace := trace w1 |})).
  { intros w1 Hw1. unfold bind at 1. unfold call_cudaGetLastError.
    rewrite Hw1, Hq. unfold bind. rewrite checkCuda_debug by assumption.
    unfold report_failure, print_and_return, print_and_abort.
    destruct (is_failure e); [destruct (NDEBUG b)|]; reflexivity. }
  unfold after_sync_and_query.
  destruct (is_failure r); rewrite Hw by reflexivity;
    unfold emit; simpl; rewrite <- ?app_assoc; reflexivity.
Qed.

Lemma checkCudaErrors_release (b : build) (w : world) :
  debug_enabled b = false -> checkCudaErrors b w = Returned cudaSuccess w.
Proof.
  intros Hd. unfold checkCudaErrors. rewrite Hd. reflexivity.
Qed.

(** C4 (as amended).  In a debug build [checkCudaErrors] first
    synchronises the device, then queries the last error, and hands the
    status queried to [checkCuda]: on a failure that prints the runtime
    error and ends the process if assertions are enabled, and prints it
    and lets [checkCudaErrors] return the failure status if [NDEBUG] is
    defined; on success [checkCudaErrors] returns success.  In a non-debug
    build it returns success and leaves the world, runtime state and trace
    alike, as it was. *)
Theorem checkCudaErrors_behaviour (b : build) (w : world) :
  (debug_enabled b = true ->
     exists r d1 e d2,
       cudaDeviceSynchronize (dev w) = (r, d1)
       /\ cudaGetLastError d1 = (e, d2)
       /\ checkCudaErrors b w =
          bind (checkCuda b e) (fun _ => ret e) (after_sync_and_query w r d2)
       /\ checkCudaErrors b w =
          if is_failure e
          then if NDEBUG b
               then print_and_return e (after_sync_and_query w r d2)
               else print_and_abort e (after_sync_and_query w r d2)
          else Returned cudaSuccess (after_sync_and_query w r d2))
  /\ (debug_enabled b = false -> checkCudaErrors b w = Returned cudaSuccess w).
Proof.
  split; intros Hd.
  - destruct (cudaDeviceSynchronize (dev w)) as [r d1] eqn:Hs.
    destruct (cudaGetLastError d1) as [e d2] eqn:Hq.
    exists r, d1, e, d2. split; [reflexivity|]. split; [exact Hq|].
    rewrite (checkCudaErrors_debug b w Hd r d1 e d2 Hs Hq).
    unfold bind. rewrite checkCuda_debug by assumption.
    unfold report_failure, print_and_return, print_and_abort, ret.
    destruct (is_failure e) eqn:He; [destruct (NDEBUG b)|];
      split; try reflexivity.
    rewrite (is_failure_false e He). reflexivity.
  - apply checkCudaErrors_release, Hd.
Qed.





End ErrorChecks.

Module SimRuntimeFacts.
Import SimRuntime.

Lemma laws : CudaRuntimeLaws runtime.
Proof.
  constructor; simpl; unfold synchronize, get_last_error.
  intros d r d' E Hr. injection E as Er Ed. subst d'. simpl.
  rewrite Er. destruct (Z.eqb_spec r cudaSuccess); [contradiction | exact Hr].
Qed.

End SimRuntimeFacts.

Lemma checkCuda_failure_witness :
  (exists text : string,
      contains (SimRuntime.error_string 1) text
      /\ checkCuda nvcc_debug 1 (SimRuntime.start SimRuntime.idle) =
         Aborted (SimRuntime.world_of SimRuntime.idle
                    [Stderr text; AssertionFailed "result == cudaSuccess"]))
  /\ (exists text : string,
         contains (SimRuntime.error_string 1) text
         /\ checkCuda nvcc_debug_ndebug 1 (SimRuntime.start SimRuntime.idle) =
            Returned 1 (SimRuntime.world_of SimRuntime.idle [Stderr text]))
  /\ checkCuda host_release 1 (SimRuntime.start SimRuntime.idle) =
     Returned 1 (SimRuntime.start SimRuntime.idle).
Proof.
  split; [|split].
  - apply (proj1 (checkCuda_failure nvcc_debug 1 (SimRuntime.start SimRuntime.idle)
                    ltac:(discriminate))).
    reflexivity.
  - apply (proj1 (checkCuda_failure nvcc_debug_ndebug 1 (SimRuntime.start SimRuntime.idle)
                    ltac:(discriminate))).
    reflexivity.
  - apply (proj2 (checkCuda_failure host_release 1 (SimRuntime.start SimRuntime.idle)
                    ltac:(discriminate))).
    reflexivity.
Defined.

(** C3 as stated fails for a build with [DEBUG] and [NDEBUG] both defined:
    the debug code prints, the assertion is compiled out, and [checkCuda]
    returns the failure status. *)
Lemma checkCuda_returns_under_ndebug :
  debug_enabled nvcc_debug_ndebug = true
  /\ 1 <> cudaSuccess
  /\ checkCuda nvcc_debug_ndebug 1 (SimRuntime.start SimRuntime.idle)
     = Returned 1 (SimRuntime.world_of SimRuntime.idle
                     [Stderr ("CUDA Runtime Error: invalid argument" ++ newline)])
  /\ ~ (exists w', checkCuda nvcc_debug_ndebug 1 (SimRuntime.start SimRuntime.idle)
                   = Aborted w').
Proof.
  split; [reflexivity|]. split; [discriminate|]. split; [reflexivity|].
  intros [w' H]. discriminate.
Qed.

Lemma checkCudaErrors_behaviour_witness :
  let w := SimRuntime.start SimRuntime.faulted in
  checkCudaErrors host_release w = Returned cudaSuccess w
  /\ exists r d1 e d2,
       SimRuntime.synchronize SimRuntime.faulted = (r, d1)
       /\ SimRuntime.get_last_error d1 = (e, d2)
       /\ checkCudaErrors nvcc_debug w
          = bind (checkCuda nvcc_debug e) (fun _ => ret e) (after_sync_and_query w r d2)
       /\ checkCudaErrors nvcc_debug w
          = if is_failure e
            then if NDEBUG nvcc_debug
                 then print_and_return e (after_sync_and_query w r d2)
                 else print_and_abort e (after_sync_and_query w r d2)
            else Returned cudaSuccess (after_sync_and_query w r d2).
Proof.
  intros w. split.
  - apply (proj2 (checkCudaErrors_behaviour host_release w)). reflexivity.
  - apply (proj1 (checkCudaErrors_behaviour nvcc_debug w)). reflexivity.
Defined.

(** C4 as stated fails for a build with [DEBUG] and [NDEBUG] both defined:
    the failure of the launch is printed twice, nothing aborts, and
    [checkCudaErrors] returns the failure status. *)
Lemma checkCudaErrors_returns_failure_under_ndebug :
  debug_enabled nvcc_debug_ndebug = true
  /\ observe (checkCudaErrors nvcc_debug_ndebug (SimRuntime.start SimRuntime.faulted))
     = (Some 2,
        [Stderr ("CUDA Launch Error: out of memory" ++ newline);
         Stderr ("CUDA Runtime Error: out of memory" ++ newline)])
  /\ 2 <> cudaSuccess
  /\ ~ (exists w', checkCudaErrors nvcc_debug_ndebug
                     (SimRuntime.start SimRuntime.faulted) = Aborted w').
Proof.
  split; [reflexivity|]. split; [reflexivity|]. split; [discriminate|].
  intros [w' H]. discriminate.
Qed.



(** A launch that failed asynchronously, checked in a debug build. *)
Example checkCudaErrors_reports_launch_failure :
  observe (checkCudaErrors nvcc_debug
             (SimRuntime.start SimRuntime.faulted))
  = (None,
     [Stderr ("CUDA Launch Error: out of memory" ++ newline);
      Stderr ("CUDA Runtime Error: out of memory" ++ newline);
      AssertionFailed "result == cudaSuccess"]).
Proof. reflexivity. Qed.

(** ** The macros *)

Lemma token_eqb_eq (a b : token) : token_eqb a b = true <-> a = b.
Proof.
  destruct a, b; simpl; rewrite ?String.eqb_eq;
    split; intros H; try discriminate; try congruence.
Qed.

Lemma token_eqb_neq (a b : token) : a <> b -> token_eqb a b = false.
Proof.
  intros H. destruct (token_eqb a b) eqn:E; [|reflexivity].
  apply token_eqb_eq in E. contradiction.
Qed.

Lemma append_cancel_l (s a b : string) : (s ++ a = s ++ b)%string -> a = b.
Proof.
  induction s as [|c s IH]; simpl; intros H; [exact H|].
  injection H as H. auto.
Qed.

Lemma devconst_is_not_hostconst (name : string) :
  String.eqb (name ++ "_devconst") (name ++ "_hostconst") = false.
Proof.
  apply String.eqb_neq. intros H. apply append_cancel_l in H. discriminate.
Qed.

(** Pasting a suffix onto a declarator renames the declared identifier. *)
Lemma paste_declarator (ty : list token) (name suffix : string) :
  paste (ty ++ [Id name]) suffix = ty ++ [Id (name ++ suffix)].
Proof.
  induction ty as [|t ty IH]; [reflexivity|].
  change ((t :: ty) ++ [Id name]) with (t :: (ty ++ [Id name])).
  simpl paste. rewrite IH.
  destruct (ty ++ [Id name]) eqn:E; [|reflexivity].
  destruct ty; discriminate.
Qed.

Lemma statements_semicolon (l r : list token) :
  ~ In (Punct ";") l ->
  statements (l ++ Punct ";" :: r) = l :: statements r.
Proof.
  induction l as [|t l IH]; intros Hl; [reflexivity|].
  simpl. rewrite token_eqb_neq by (intros ->; apply Hl; left; reflexivity).
  rewrite IH by (intros H; apply Hl; right; exact H). reflexivity.
Qed.

Lemma break_at_first (sep : token) (l r : list token) :
  ~ In sep l -> break_at sep (l ++ sep :: r) = (l, Some r).
Proof.
  induction l as [|t l IH]; intros Hl; simpl.
  - rewrite (proj2 (token_eqb_eq sep sep) eq_refl). reflexivity.
  - rewrite token_eqb_neq by (intros ->; apply Hl; left; reflexivity).
    rewrite IH by (intros H; apply Hl; right; exact H). reflexivity.
Qed.

(** Reading back [specifiers name = value]. *)
Lemma read_simple_declaration (specs : list token) (name : string) (value : list token) :
  ~ In (Punct "=") specs ->
  read_declaration (specs ++ [Id name] ++ [Punct "="] ++ value)
  = Some {| specifiers := specs; declared := name; initial_value := value |}.
Proof.
  intros Hs. unfold read_declaration.
  replace (specs ++ [Id name] ++ [Punct "="] ++ value)
    with ((specs ++ [Id name]) ++ Punct "=" :: value)
    by (rewrite <- app_assoc; reflexivity).
  rewrite break_at_first.
  - rewrite rev_app_distr. simpl. rewrite rev_involutive. reflexivity.
  - rewrite in_app_iff. simpl. intros [H | [H | []]]; [auto | discriminate].
Qed.

Lemma not_in_declaration (sep : token) (q : string) (ty : list token)
      (name : string) (value : list token) :
  sep <> Punct "=" -> (forall n, sep <> Id n) ->
  ~ In sep ty -> ~ In sep value ->
  ~ In sep ((Id q :: ty) ++ [Id name] ++ [Punct "="] ++ value).
Proof.
  intros He Hn Ht Hv. rewrite !in_app_iff. simpl.
  intros [[H | H] | [[H | []] | [[H | []] | H]]]; try congruence; auto;
    symmetry in H; revert H; apply Hn.
Qed.

(** Bring two token sequences built with [++] and [::] to one shape. *)
Ltac flatten_lists :=
  repeat (progress (simpl; rewrite <- ?app_assoc, <- ?app_comm_cons)).

(** The declarations a use of [HEMI_DEFINE_CONSTANT(ty name, value);]
    stands for. *)
Lemma define_constant_declarations (b : build) (ty : list token) (name : string)
      (value : list token) :
  ~ In (Punct ";") ty -> ~ In (Punct "=") ty -> ~ In (Punct ";") value ->
  declarations (HEMI_DEFINE_CONSTANT b (ty ++ [Id name]) value ++ [Punct ";"])
  = if __CUDACC__ b then
      [ {| specifiers := Id "__constant__" :: ty;
           declared := name ++ "_devconst"; initial_value := value |};
        {| specifiers := Id "static" :: ty;
           declared := name ++ "_hostconst"; initial_value := value |} ]
    else
      [ {| specifiers := Id "static" :: ty;
           declared := name ++ "_hostconst"; initial_value := value |} ].
Proof.
  intros Hsemi Heq Hvsemi.
  assert (Hspec : forall q, ~ In (Punct "=") (Id q :: ty)).
  { intros q [H | H]; [discriminate | auto]. }
  assert (Hstmt : forall q suffix,
             ~ In (Punct ";")
                  ((Id q :: ty) ++ [Id (name ++ suffix)] ++ [Punct "="] ++ value)).
  { intros q suffix. apply not_in_declaration; auto; discriminate. }
  unfold declarations, HEMI_DEFINE_CONSTANT. rewrite !paste_declarator.
  destruct (__CUDACC__ b).
  - replace (([Id "__constant__"] ++ (ty ++ [Id (name ++ "_devconst")]) ++ [Punct "="]
              ++ value ++ [Punct ";"] ++ [Id "static"]
              ++ (ty ++ [Id (name ++ "_hostconst")]) ++ [Punct "="] ++ value
              ++ [Punct ";"]) ++ [Punct ";"])
      with (((Id "__constant__" :: ty) ++ [Id (name ++ "_devconst")] ++ [Punct "="] ++ value)
            ++ Punct ";"
            :: ((Id "static" :: ty) ++ [Id (name ++ "_hostconst")] ++ [Punct "="] ++ value)
            ++ Punct ";" :: [Punct ";"])
      by (flatten_lists; reflexivity).
    rewrite statements_semicolon by apply Hstmt.
    rewrite statements_semicolon by apply Hstmt.
    cbn [flat_map]. rewrite !read_simple_declaration by apply Hspec. reflexivity.
  - replace (([Id "static"] ++ (ty ++ [Id (name ++ "_hostconst")]) ++ [Punct "="] ++ value)
             ++ [Punct ";"])
      with (((Id "static" :: ty) ++ [Id (name ++ "_hostconst")] ++ [Punct "="] ++ value)
            ++ Punct ";" :: [])
      by (flatten_lists; reflexivity).
    rewrite statements_semicolon by apply Hstmt.
    cbn [flat_map]. rewrite !read_simple_declaration by apply Hspec. reflexivity.
Qed.

(** At the level of declarations: the accessor [HEMI_CONSTANT(name)]
    names a declaration that [HEMI_DEFINE_CONSTANT(ty name, V);] makes,
    with initializer [V]: the [_hostconst] copy wherever host code is
    compiled, the [_devconst] copy in the device pass; and under the CUDA
    compiler the definition declares both copies, the device one in
    constant memory, with the same initializer [V]. *)
Lemma constant_round_trip (b : build) (ty : list token) (name : string)
        (V : list token) :
  ~ In (Punct ";") ty -> ~ In (Punct "=") ty -> ~ In (Punct ";") V ->
  let unit :=
    declarations (HEMI_DEFINE_CONSTANT b (ty ++ [Id name]) V ++ [Punct ";"]) in
  read_constant (HEMI_CONSTANT b name) unit = Some V
  /\ HEMI_CONSTANT b name =
     [Id (name ++ (if HEMI_DEV_CODE b then "_devconst" else "_hostconst"))]
  /\ (__CUDACC__ b = true ->
      lookup (name ++ "_devconst") unit
      = Some {| specifiers := Id "__constant__" :: ty;
                declared := name ++ "_devconst"; initial_value := V |}
      /\ lookup (name ++ "_hostconst") unit
         = Some {| specifiers := Id "static" :: ty;
                   declared := name ++ "_hostconst"; initial_value := V |}
      /\ option_map in_constant_memory (lookup (name ++ "_devconst") unit)
         = Some true).
Proof.
  intros Hsemi Heq Hvsemi unit. subst unit.
  rewrite define_constant_declarations by assumption.
  unfold HEMI_CONSTANT, HEMI_DEV_CODE, read_constant, lookup.
  destruct (__CUDACC__ b); simpl.
  - destruct (__CUDA_ARCH__ b); simpl;
      rewrite ?String.eqb_refl, ?devconst_is_not_hostconst; simpl;
      rewrite ?String.eqb_refl; repeat split.
  - rewrite String.eqb_refl. split; [reflexivity|]. split; [reflexivity|].
    discriminate.
Qed.

Lemma constant_round_trip_witness :
  read_constant (HEMI_CONSTANT nvcc_device_pass "Pi")
    (declarations
       (HEMI_DEFINE_CONSTANT nvcc_device_pass ([Id "float"] ++ [Id "Pi"]) [Lit "3.14159"]
        ++ [Punct ";"]))
  = Some [Lit "3.14159"]
  /\ read_constant (HEMI_CONSTANT host_release "Pi")
       (declarations
          (HEMI_DEFINE_CONSTANT host_release ([Id "float"] ++ [Id "Pi"]) [Lit "3.14159"]
           ++ [Punct ";"]))
     = Some [Lit "3.14159"].
Proof.
  assert (Hty : forall p, ~ In (Punct p) [Id "float"])
    by (intros p [H | []]; discriminate).
  assert (Hv : ~ In (Punct ";") [Lit "3.14159"])
    by (intros [H | []]; discriminate).
  split.
  - exact (proj1 (constant_round_trip nvcc_device_pass [Id "float"] "Pi"
                    [Lit "3.14159"] (Hty _) (Hty _) Hv)).
  - exact (proj1 (constant_round_trip host_release [Id "float"] "Pi"
                    [Lit "3.14159"] (Hty _) (Hty _) Hv)).
Defined.

Lemma lookup_defined_constant (b : build) (ty : list token) (name : string)
      (V : list token) :
  ~ In (Punct ";") ty -> ~ In (Punct "=") ty -> ~ In (Punct ";") V ->
  let unit :=
    declarations (HEMI_DEFINE_CONSTANT b (ty ++ [Id name]) V ++ [Punct ";"]) in
  lookup (name ++ "_hostconst") unit
  = Some {| specifiers := Id "static" :: ty;
            declared := name ++ "_hostconst"; initial_value := V |}
  /\ (__CUDACC__ b = true ->
      lookup (name ++ "_devconst") unit
      = Some {| specifiers := Id "__constant__" :: ty;
                declared := name ++ "_devconst"; initial_value := V |}).
Proof.
  intros Hsemi Heq Hvsemi unit. subst unit.
  rewrite define_constant_declarations by assumption.
  unfold lookup. destruct (__CUDACC__ b); simpl.
  - rewrite devconst_is_not_hostconst, !String.eqb_refl. split; auto.
  - rewrite String.eqb_refl. split; [reflexivity | discriminate].
Qed.

Lemma initialized_static {S : InitializerSemantics} (ty V : list token) :
  initialized (Id "static" :: ty) V = initialized ty V.
Proof. reflexivity. Qed.

Lemma initialized_constant {S : InitializerSemantics} (ty V : list token) :
  initialized (Id "__constant__" :: ty) V = initialized ty V.
Proof. reflexivity. Qed.

(** C6 (as amended).  A constant defined with
    [HEMI_DEFINE_CONSTANT(ty name, V);] and read back through
    [HEMI_CONSTANT(name)] yields [V] converted to the declared type [ty]:
    through the [_hostconst] copy wherever host code is compiled, through
    the [_devconst] copy in the device pass.  Under the CUDA compiler both
    copies are declared with the same type and the same initializer [V],
    so they hold the same value.  The value read is exactly that of [V]
    whenever the conversion to [ty] leaves it unchanged. *)
Theorem constant_value_round_trip {S : InitializerSemantics}
        (b : build) (ty : list token) (name : string) (V : list token) :
  ~ In (Punct ";") ty -> ~ In (Punct "=") ty -> ~ In (Punct ";") V ->
  let unit :=
    declarations (HEMI_DEFINE_CONSTANT b (ty ++ [Id name]) V ++ [Punct ";"]) in
  read_value (HEMI_CONSTANT b name) unit = initialized ty V
  /\ HEMI_CONSTANT b name =
     [Id (name ++ (if HEMI_DEV_CODE b then "_devconst" else "_hostconst"))]
  /\ (__CUDACC__ b = true ->
      read_value [Id (name ++ "_devconst")] unit = initialized ty V
      /\ read_value [Id (name ++ "_hostconst")] unit = initialized ty V
      /\ option_map initial_value (lookup (name ++ "_devconst") unit) = Some V
      /\ option_map initial_value (lookup (name ++ "_hostconst") unit) = Some V)
  /\ (forall v,
        constant_expression V = Some v -> converted_to (type_of ty) v = Some v ->
        read_value (HEMI_CONSTANT b name) unit = Some v).
Proof.
  intros Hsemi Heq Hvsemi unit.
  destruct (lookup_defined_constant b ty name V Hsemi Heq Hvsemi) as [Hhost Hdev].
  fold unit in Hhost, Hdev.
  assert (Rhost : read_value [Id (name ++ "_hostconst")] unit = initialized ty V).
  { unfold read_value. rewrite Hhost. apply initialized_static. }
  assert (Rdev : __CUDACC__ b = true ->
                 read_value [Id (name ++ "_devconst")] unit = initialized ty V).
  { intros Hc. unfold read_value. rewrite (Hdev Hc). apply initialized_constant. }
  assert (Hname : HEMI_CONSTANT b name =
                  [Id (name ++ (if HEMI_DEV_CODE b then "_devconst" else "_hostconst"))]).
  { unfold HEMI_CONSTANT, HEMI_DEV_CODE.
    destruct (__CUDACC__ b); [destruct (__CUDA_ARCH__ b)|]; reflexivity. }
  assert (Rused : read_value (HEMI_CONSTANT b name) unit = initialized ty V).
  { rewrite Hname. unfold HEMI_DEV_CODE.
    destruct (__CUDACC__ b) eqn:Hc; [destruct (__CUDA_ARCH__ b)|]; simpl;
      auto. }
  split; [exact Rused|]. split; [exact Hname|]. split.
  - intros Hc. split; [apply Rdev, Hc|]. split; [exact Rhost|].
    rewrite (Hdev Hc), Hhost. split; reflexivity.
  - intros v Hv Hconv. rewrite Rused. unfold initialized. rewrite Hv. exact Hconv.
Qed.

Lemma constant_value_round_trip_witness :
  read_value (S := SimValues.semantics) (HEMI_CONSTANT nvcc_device_pass "E")
    (declarations
       (HEMI_DEFINE_CONSTANT nvcc_device_pass ([Id "double"] ++ [Id "E"]) [Lit "2.5"]
        ++ [Punct ";"]))
  = Some (SimValues.DecV 2 "5")
  /\ read_value (S := SimValues.semantics) (HEMI_CONSTANT host_release "N")
       (declarations
          (HEMI_DEFINE_CONSTANT host_release ([Id "int"] ++ [Id "N"]) [Lit "1024"]
           ++ [Punct ";"]))
     = Some (SimValues.IntV 1024).
Proof.
  assert (Hty : forall t p, ~ In (Punct p) [Id t])
    by (intros t p [H | []]; discriminate).
  assert (Hv : forall v, ~ In (Punct ";") [Lit v])
    by (intros v [H | []]; discriminate).
  split.
  - exact (proj1 (constant_value_round_trip (S := SimValues.semantics)
                    nvcc_device_pass [Id "double"] "E" [Lit "2.5"]
                    (Hty _ _) (Hty _ _) (Hv _))).
  - exact (proj1 (constant_value_round_trip (S := SimValues.semantics)
                    host_release [Id "int"] "N" [Lit "1024"]
                    (Hty _ _) (Hty _ _) (Hv _))).
Defined.

(** C6 as stated fails for an initializer the declared type does not
    represent: [HEMI_DEFINE_CONSTANT(int K, 3.9);] read back through
    [HEMI_CONSTANT(K)] yields 3, not 3.9. *)
Lemma constant_read_back_is_converted :
  constant_expression (InitializerSemantics := SimValues.semantics) [Lit "3.9"]
  = Some (SimValues.DecV 3 "9")
  /\ read_value (S := SimValues.semantics) (HEMI_CONSTANT host_release "K")
       (declarations
          (HEMI_DEFINE_CONSTANT host_release ([Id "int"] ++ [Id "K"]) [Lit "3.9"]
           ++ [Punct ";"]))
     = Some (SimValues.IntV 3)
  /\ ~ (forall (b : build) (ty : list token) (name : string) (V : list token)
               (v : SimValues.number),
          ~ In (Punct ";") ty -> ~ In (Punct "=") ty -> ~ In (Punct ";") V ->
          constant_expression (InitializerSemantics := SimValues.semantics) V = Some v ->
          read_value (S := SimValues.semantics) (HEMI_CONSTANT b name)
            (declarations (HEMI_DEFINE_CONSTANT b (ty ++ [Id name]) V ++ [Punct ";"]))
          = Some v).
Proof.
  split; [reflexivity|]. split; [reflexivity|].
  intros H.
  specialize (H host_release [Id "int"] "K"%string [Lit "3.9"] (SimValues.DecV 3 "9")).
  assert (Hty : forall p, ~ In (Punct p) [Id "int"])
    by (intros p [E | []]; discriminate).
  assert (Hv : ~ In (Punct ";") [Lit "3.9"])
    by (intros [E | []]; discriminate).
  specialize (H (Hty _) (Hty _) Hv eq_refl).
  discriminate.
Qed.

(** C7 (as amended).  Under the CUDA compiler [HEMI_DEV_CONSTANT(name)] is
    [name_devconst] whichever pass is running and whatever the debug
    setting; under a host compiler the macro has no definition. *)
Theorem dev_constant_names_device_copy (b : build) (name : string) :
  HEMI_DEV_CONSTANT b name
  = (if __CUDACC__ b then Some [Id (name ++ "_devconst")] else None)
  /\ forall arch dbg dbg' ndbg : bool,
       HEMI_DEV_CONSTANT {| __CUDACC__ := __CUDACC__ b; __CUDA_ARCH__ := arch;
                            DEBUG := dbg; _DEBUG := dbg'; NDEBUG := ndbg |} name
       = HEMI_DEV_CONSTANT b name.
Proof.
  unfold HEMI_DEV_CONSTANT. simpl. split; reflexivity.
Qed.

(** C7 as stated fails for the pass of a host compiler: the macro does not
    expand there, so it names nothing. *)
Lemma dev_constant_undefined_on_host :
  HEMI_DEV_CONSTANT host_release "Pi" = None
  /\ ~ (forall b name, HEMI_DEV_CONSTANT b name = Some [Id (name ++ "_devconst")]).
Proof.
  split; [reflexivity|].
  intros H. specialize (H host_release "Pi"%string). discriminate.
Qed.

(** C8.  Under a host compiler [HEMI_KERNEL_LAUNCH] expands to the tokens
    of the plain call [name(args)]: the grid, block, shared-memory and
    stream arguments do not occur in the expansion, so whatever meaning is
    given to token sequences, the launch and the plain call have the same. *)
Theorem host_launch_is_plain_call (b : build) (name : string)
        (gridDim blockDim sharedBytes streamId args : list token) :
  __CUDACC__ b = false ->
  HEMI_KERNEL_LAUNCH b name gridDim blockDim sharedBytes streamId args
  = plain_call name args
  /\ (forall gridDim' blockDim' sharedBytes' streamId' : list token,
        HEMI_KERNEL_LAUNCH b name gridDim' blockDim' sharedBytes' streamId' args
        = HEMI_KERNEL_LAUNCH b name gridDim blockDim sharedBytes streamId args)
  /\ (forall (X : Type) (meaning : list token -> X),
        meaning (HEMI_KERNEL_LAUNCH b name gridDim blockDim sharedBytes streamId args)
        = meaning (plain_call name args)).
Proof.
  intros Hhost. unfold HEMI_KERNEL_LAUNCH, plain_call, parens. rewrite Hhost.
  repeat split.
Qed.

Lemma host_launch_is_plain_call_witness :
  HEMI_KERNEL_LAUNCH host_debug "saxpy" [Lit "4"] [Lit "256"] [Lit "0"] [Lit "0"]
                     [Id "n"; Punct ","; Id "a"; Punct ","; Id "x"; Punct ","; Id "y"]
  = [Id "saxpy"; Punct "("; Id "n"; Punct ","; Id "a"; Punct ","; Id "x";
     Punct ","; Id "y"; Punct ")"].
Proof.
  exact (proj1 (host_launch_is_plain_call host_debug "saxpy" [Lit "4"] [Lit "256"]
                  [Lit "0"] [Lit "0"]
                  [Id "n"; Punct ","; Id "a"; Punct ","; Id "x"; Punct ","; Id "y"]
                  eq_refl)).
Defined.

(** C10.  In every build the function that [HEMI_KERNEL(name)] declares,
    the function that [HEMI_KERNEL_NAME(name)] names and the function that
    [HEMI_KERNEL_LAUNCH(name, ...)] invokes are one and the same:
    [name_kernel] under the CUDA compiler, [name] under a host compiler. *)
Theorem kernel_symbol_agreement (b : build) (name : string)
        (gridDim blockDim sharedBytes streamId args : list token) :
  declared_function (HEMI_KERNEL b name)
  = Some (if __CUDACC__ b then name ++ "_kernel" else name)%string
  /\ named_function (HEMI_KERNEL_NAME b name)
     = Some (if __CUDACC__ b then name ++ "_kernel" else name)%string
  /\ first_callee (HEMI_KERNEL_LAUNCH b name gridDim blockDim sharedBytes streamId args)
     = Some (if __CUDACC__ b then name ++ "_kernel" else name)%string.
Proof.
  unfold HEMI_KERNEL, HEMI_KERNEL_NAME, HEMI_KERNEL_LAUNCH, kernel_launch_expr.
  destruct (__CUDACC__ b); [destruct (debug_enabled b)|]; repeat split.
Qed.

(** * Further properties of the header *)

(** ** The loop and the helpers together *)

Lemma loop_visits_unique (N stride offset : Z) (l l' : list Z) :
  loop_visits N stride offset l -> loop_visits N stride offset l' -> l = l'.
Proof.
  intros [f Hf] [f' Hf'].
  specialize (Hf (Nat.max f f') (Nat.le_max_l _ _)).
  specialize (Hf' (Nat.max f f') (Nat.le_max_r _ _)).
  congruence.
Qed.

Lemma run_is_visit (fuel : nat) (N stride offset : Z) (l : list Z) :
  strided_loop fuel N stride offset = Some l -> loop_visits N stride offset l.
Proof.
  intros H. exists fuel. intros fuel' Hle.
  apply (strided_loop_fuel_mono fuel); assumption.
Qed.

Lemma progression_cons (idx T : Z) (n : nat) :
  progression idx T (S n) = idx :: progression (idx + T) T n.
Proof.
  unfold progression. simpl. f_equal; [lia|].
  rewrite <- seq_shift, map_map. apply map_ext. intros k. lia.
Qed.

Lemma iterations_done (N T idx : Z) : 1 <= T -> N <= idx -> iterations N T idx = O.
Proof.
  intros HT H. unfold iterations.
  assert ((N - idx + T - 1) / T <= 0); [|lia].
  destruct (Z_lt_ge_dec (N - idx + T - 1) 0) as [Hneg|Hpos].
  - pose proof (Z.div_lt_upper_bound (N - idx + T - 1) T 0 ltac:(lia) ltac:(lia)). lia.
  - rewrite Z.div_small; lia.
Qed.

Lemma iterations_step (N T idx : Z) :
  1 <= T -> idx < N -> iterations N T idx = S (iterations N T (idx + T)).
Proof.
  intros HT H. unfold iterations.
  replace (N - idx + T - 1) with (N - (idx + T) + T - 1 + 1 * T) by lia.
  rewrite Z.div_add by lia.
  replace (N - (idx + T) + T - 1) with (N - idx - 1) by lia.
  pose proof (Z.div_pos (N - idx - 1) T ltac:(lia) ltac:(lia)). lia.
Qed.

(** The loop without overflow, in closed form. *)
Lemma strided_loop_progression (fuel : nat) (N T : Z) :
  1 <= T -> N = 0 \/ N + T <= 2 ^ 31 ->
  forall idx, 0 <= idx -> (Z.to_nat (N - idx) <= fuel)%nat ->
  strided_loop fuel N T idx = Some (progression idx T (iterations N T idx)).
Proof.
  intros HT Hfit.
  induction fuel as [|fuel IH]; intros idx Hidx Hfuel.
  - rewrite strided_loop_exit, iterations_done by lia. reflexivity.
  - destruct (Z_lt_ge_dec idx N) as [Hlt|Hge].
    + rewrite strided_loop_step by assumption.
      unfold int_add.
      rewrite to_int_exact by (unfold is_int, int_min, int_max; lia).
      rewrite IH, (iterations_step N T idx), progression_cons by lia.
      reflexivity.
    + rewrite strided_loop_exit, iterations_done by lia. reflexivity.
Qed.

(** While [idx += T] stays within [int], the loop started at [idx >= 0]
    finishes and has processed [idx, idx + T, idx + 2T, ...] in this order:
    [(N - idx + T - 1) / T] indices if [idx < N], none otherwise; and no
    run of the loop processes anything else. *)
Theorem strided_loop_closed_form (N T idx : Z) :
  1 <= T -> N = 0 \/ N + T <= 2 ^ 31 -> 0 <= idx ->
  loop_visits N T idx (progression idx T (iterations N T idx))
  /\ (forall l, loop_visits N T idx l -> l = progression idx T (iterations N T idx))
  /\ (idx < N -> Z.of_nat (iterations N T idx) = (N - idx + T - 1) / T)
  /\ (N <= idx -> iterations N T idx = O).
Proof.
  intros HT Hfit Hidx.
  assert (Hv : loop_visits N T idx (progression idx T (iterations N T idx))).
  { apply (run_is_visit (Z.to_nat (N - idx))).
    apply strided_loop_progression; auto. }
  split; [exact Hv|]. split.
  - intros l Hl. apply (loop_visits_unique N T idx); assumption.
  - split.
    + intros Hlt. unfold iterations.
      pose proof (Z.div_pos (N - idx + T - 1) T ltac:(lia) ltac:(lia)). lia.
    + intros Hge. apply iterations_done; assumption.
Qed.

Lemma strided_loop_closed_form_witness :
  loop_visits 10 4 1 [1; 5; 9].
Proof.
  exact (proj1 (strided_loop_closed_form 10 4 1 ltac:(lia) ltac:(lia) ltac:(lia))).
Defined.



Lemma strided_loop_head (fuel : nat) (N stride idx : Z) (l : list Z) :
  idx < N -> strided_loop fuel N stride idx = Some l -> In idx l.
Proof.
  intros Hlt Hrun. destruct fuel as [|fuel].
  - simpl in Hrun. destruct (Z.ltb_spec idx N); [discriminate | lia].
  - rewrite strided_loop_step in Hrun by assumption.
    destruct (strided_loop fuel N stride (int_add idx stride)); [|discriminate].
    injection Hrun as <-. left. reflexivity.
Qed.

Lemma to_int_wraps (v : Z) : 2 ^ 31 <= v < 2 ^ 32 -> to_int v = v - 2 ^ 32.
Proof.
  intros Hv. unfold to_int, uint_modulus.
  replace (v + 2 ^ 31) with (v - 2 ^ 31 + 1 * 2 ^ 32) by lia.
  rewrite Z_mod_plus_full, Z.mod_small; lia.
Qed.

(** Once [N + T] exceeds 2^31, the thread that processes index [N - 1]
    goes on to the index [N - 1 + T - 2^32]. *)
Lemma overflow_reaches_negative (fuel : nat) (N T : Z) :
  1 <= N <= int_max -> 1 <= T <= int_max -> 2 ^ 31 < N + T ->
  forall idx l,
    0 <= idx <= N - 1 -> (N - 1 - idx) mod T = 0 ->
    strided_loop fuel N T idx = Some l ->
    In (N - 1 + T - 2 ^ 32) l.
Proof.
  unfold int_max. intros HN HT Hbig.
  induction fuel as [|fuel IH]; intros idx l Hidx Hmod Hrun.
  - simpl in Hrun. destruct (Z.ltb_spec idx N); [discriminate | lia].
  - rewrite strided_loop_step in Hrun by lia.
    destruct (strided_loop fuel N T (int_add idx T)) as [l'|] eqn:E; [|discriminate].
    injection Hrun as <-. right.
    destruct (Z.eq_dec idx (N - 1)) as [->|Hne].
    + unfold int_add in E. rewrite to_int_wraps in E by lia.
      apply (strided_loop_head fuel N T); [lia | exact E].
    + pose proof (positive_multiple_ge T (N - 1 - idx) ltac:(lia) ltac:(lia) Hmod).
      unfold int_add in E.
      rewrite to_int_exact in E by (unfold is_int, int_min, int_max; lia).
      apply (IH (idx + T)); [lia | | exact E].
      replace (N - 1 - (idx + T)) with (N - 1 - idx + (-1) * T) by lia.
      rewrite Z_mod_plus_full. exact Hmod.
Qed.

(** The bound on [N + T] is sharp: for [int] operands with [N >= 1] and
    [N + T > 2^31] the threads' loops do not share out [0, N), because the
    thread that processes index [N - 1] overflows [idx] and carries on
    with a negative index. *)
Theorem overflow_breaks_partition (N T : Z) :
  1 <= N <= int_max -> 1 <= T <= int_max -> 2 ^ 31 < N + T ->
  ~ grid_stride_partition N T.
Proof.
  intros HN HT Hbig (visited & Hrun & _ & _ & Hcover & _).
  pose proof (Z.mod_pos_bound (N - 1) T ltac:(lia)) as Ht.
  pose proof (Z.mod_le (N - 1) T ltac:(lia) ltac:(lia)) as Hle.
  destruct (Hrun ((N - 1) mod T) Ht) as [fuel Hfuel].
  specialize (Hfuel fuel (Nat.le_refl _)).
  assert (Hin : In (N - 1 + T - 2 ^ 32) (visited ((N - 1) mod T))).
  { apply (overflow_reaches_negative fuel N T HN HT Hbig ((N - 1) mod T));
      [lia | | exact Hfuel].
    pose proof (Z.div_mod (N - 1) T ltac:(lia)) as E.
    replace (N - 1 - (N - 1) mod T) with (0 + (N - 1) / T * T) by lia.
    rewrite Z_mod_plus_full. apply Z.mod_0_l. lia. }
  assert (Hrange : 0 <= N - 1 + T - 2 ^ 32 < N).
  { apply Hcover. exists ((N - 1) mod T). split; assumption. }
  unfold int_max in *. lia.
Qed.

Lemma overflow_breaks_partition_witness :
  ~ grid_stride_partition 2147483000 1048576.
Proof.
  apply overflow_breaks_partition; unfold int_max; lia.
Defined.

Lemma zero_stride_never_finishes (fuel : nat) (N idx : Z) :
  is_int idx -> idx < N -> strided_loop fuel N 0 idx = None.
Proof.
  intros Hint Hlt. induction fuel as [|fuel IH].
  - simpl. destruct (Z.ltb_spec idx N); [reflexivity | lia].
  - rewrite strided_loop_step by assumption.
    unfold int_add. rewrite Z.add_0_r, to_int_exact by assumption.
    rewrite IH. reflexivity.
Qed.

(** A launch whose thread count [blockDim.x * gridDim.x] is a multiple of
    2^32 gets the stride 0 in device code, and with it the loop of every
    thread whose offset is below [N] never finishes. *)
Theorem wrapped_stride_hangs (b : build) (c : builtins) :
  HEMI_DEV_CODE b = true ->
  (x (blockDim c) * x (gridDim c)) mod 2 ^ 32 = 0 ->
  hemiGetElementStride b c = 0
  /\ forall N fuel,
       hemiGetElementOffset b c < N ->
       strided_loop fuel N (hemiGetElementStride b c) (hemiGetElementOffset b c) = None.
Proof.
  intros Hdev Hwrap.
  assert (Hs : hemiGetElementStride b c = 0).
  { unfold hemiGetElementStride, uint_mul, uint_modulus. rewrite Hdev, Hwrap.
    reflexivity. }
  split; [exact Hs|]. intros N fuel Hlt. rewrite Hs.
  apply zero_stride_never_finishes; [|exact Hlt].
  unfold hemiGetElementOffset. rewrite Hdev. apply to_int_range.
Qed.

Lemma wrapped_stride_hangs_witness :
  hemiGetElementStride nvcc_device_pass (launch_thread 4194304 1024 0 0) = 0
  /\ forall N fuel,
       hemiGetElementOffset nvcc_device_pass (launch_thread 4194304 1024 0 0) < N ->
       strided_loop fuel N
         (hemiGetElementStride nvcc_device_pass (launch_thread 4194304 1024 0 0))
         (hemiGetElementOffset nvcc_device_pass (launch_thread 4194304 1024 0 0))
       = None.
Proof.
  apply (wrapped_stride_hangs nvcc_device_pass (launch_thread 4194304 1024 0 0));
    reflexivity.
Defined.

(** A one-dimensional launch [<<<gd, bd>>>] in device code, with a thread
    count that is an [int] and no overflow of [idx]: every thread's loop
    finishes inside [0, N), and every index of [0, N) is processed exactly
    once, by exactly one thread of the launch. *)
Theorem device_launch_covers_once (b : build) (gd bd N : Z) :
  HEMI_DEV_CODE b = true ->
  1 <= bd -> 1 <= gd -> bd * gd <= int_max ->
  0 <= N -> N = 0 \/ N + bd * gd <= 2 ^ 31 ->
  (forall bx tx, 0 <= bx < gd -> 0 <= tx < bd ->
     exists l, thread_visits b (launch_thread gd bd bx tx) N l
               /\ forall i, In i l -> 0 <= i < N)
  /\ (forall i, 0 <= i < N ->
        exists bx tx l,
          (0 <= bx < gd /\ 0 <= tx < bd)
          /\ thread_visits b (launch_thread gd bd bx tx) N l
          /\ count_occ Z.eq_dec l i = 1%nat
          /\ forall bx' tx' l',
               0 <= bx' < gd -> 0 <= tx' < bd ->
               thread_visits b (launch_thread gd bd bx' tx') N l' ->
               In i l' -> bx' = bx /\ tx' = tx).
Proof.
  intros Hdev Hbd Hgd Hfit HN Hov.
  assert (Hthread : forall bx tx, 0 <= bx < gd -> 0 <= tx < bd ->
            0 <= bx * bd + tx < bd * gd
            /\ exists l,
                 thread_visits b (launch_thread gd bd bx tx) N l
                 /\ (forall i, In i l <->
                               bx * bd + tx <= i < N /\ (i - (bx * bd + tx)) mod (bd * gd) = 0)
                 /\ NoDup l).
  { intros bx tx Hbx Htx.
    destruct (device_offsets_enumerate_threads b (launch_thread gd bd bx tx) Hdev)
      as (Hs & Ho & Hq & Hr); simpl; try lia.
    simpl in Hs, Hq, Hr.
    assert (Hoff : hemiGetElementOffset b (launch_thread gd bd bx tx) = bx * bd + tx).
    { pose proof (Z.div_mod (hemiGetElementOffset b (launch_thread gd bd bx tx)) bd
                    ltac:(lia)). nia. }
    rewrite Hs, Hoff in Ho. split; [exact Ho|].
    destruct (strided_loop_run (Z.to_nat N) N (bd * gd) ltac:(nia) Hov
                (bx * bd + tx) ltac:(lia) ltac:(lia)) as (l & Hrun & Hin & Hnd).
    exists l. split; [|split; assumption].
    unfold thread_visits. rewrite Hs, Hoff. apply (run_is_visit _ _ _ _ _ Hrun). }
  split.
  - intros bx tx Hbx Htx.
    destruct (Hthread bx tx Hbx Htx) as (Hrange & l & Hv & Hin & _).
    exists l. split; [exact Hv|]. intros i Hi. apply Hin in Hi. lia.
  - intros i Hi.
    pose proof (Z.mod_pos_bound i (bd * gd) ltac:(nia)) as Ht.
    set (t := i mod (bd * gd)) in *.
    pose proof (Z.mod_pos_bound t bd ltac:(lia)) as Htx.
    pose proof (Z.div_mod t bd ltac:(lia)) as Et.
    assert (Hbx : 0 <= t / bd < gd).
    { split; [apply Z.div_pos; lia|].
      apply Z.div_lt_upper_bound; lia. }
    assert (Eoff : t / bd * bd + t mod bd = t) by lia.
    destruct (Hthread (t / bd) (t mod bd) Hbx Htx) as (_ & l & Hv & Hin & Hnd).
    rewrite Eoff in Hin.
    assert (Hil : In i l).
    { apply Hin. pose proof (Z.div_mod i (bd * gd) ltac:(nia)) as Ei.
      pose proof (Z.div_pos i (bd * gd) ltac:(lia) ltac:(nia)) as Hq.
      fold t in Ei. split; [nia|].
      replace (i - t) with (0 + i / (bd * gd) * (bd * gd)) by lia.
      rewrite Z_mod_plus_full. apply Z.mod_0_l. nia. }
    exists (t / bd), (t mod bd), l. split; [split; assumption|].
    split; [exact Hv|]. split.
    + apply NoDup_count_occ'; assumption.
    + intros bx' tx' l' Hbx' Htx' Hv' Hil'.
      destruct (Hthread bx' tx' Hbx' Htx') as (Hrange' & l'' & Hv'' & Hin' & _).
      rewrite (loop_visits_unique _ _ _ _ _ Hv' Hv'') in Hil'.
      apply Hin' in Hil'.
      assert (Esame : bx' * bd + tx' = t).
      { apply (same_residue (bd * gd) _ _ i); try lia; try tauto.
        apply Hin in Hil. tauto. }
      split.
      * apply (Z.div_unique_pos t bd bx' tx'); lia.
      * apply (Z.mod_unique_pos t bd bx' tx'); lia.
Qed.

Lemma device_launch_covers_once_witness :
  exists bx tx l,
    (0 <= bx < 2 /\ 0 <= tx < 2)
    /\ thread_visits nvcc_device_pass (launch_thread 2 2 bx tx) 10 l
    /\ count_occ Z.eq_dec l 7 = 1%nat
    /\ forall bx' tx' l',
         0 <= bx' < 2 -> 0 <= tx' < 2 ->
         thread_visits nvcc_device_pass (launch_thread 2 2 bx' tx') 10 l' ->
         In 7 l' -> bx' = bx /\ tx' = tx.
Proof.
  apply (proj2 (device_launch_covers_once nvcc_device_pass 2 2 10 eq_refl
                  ltac:(lia) ltac:(lia) ltac:(unfold int_max; lia)
                  ltac:(lia) ltac:(lia)) 7).
  lia.
Defined.

(** ** More on the error-check helpers *)

Section ErrorChecksFurther.
Context {R : CudaRuntime}.

(** What the status returned by [checkCudaErrors] can be: in a non-debug
    build and in a debug build with live assertions a call that returns
    returns [cudaSuccess], for every runtime (a failure was never looked
    for, or ended the process); in a debug build it is always the status
    [cudaGetLastError] reported, so a failure status is returned only by
    a debug build whose assertion [NDEBUG] has compiled out. *)
Theorem checkCudaErrors_return_value (b : build) (w w' : world)
        (r : cudaError_t) :
  checkCudaErrors b w = Returned r w' ->
  (debug_enabled b && NDEBUG b = false -> r = cudaSuccess)
  /\ (debug_enabled b = true ->
      r = fst (cudaGetLastError (snd (cudaDeviceSynchronize (dev w))))).
Proof.
  destruct (debug_enabled b) eqn:Hd.
  - destruct (cudaDeviceSynchronize (dev w)) as [s d1] eqn:Hs.
    destruct (cudaGetLastError d1) as [e d2] eqn:Hq.
    rewrite (checkCudaErrors_debug b w Hd s d1 e d2 Hs Hq).
    simpl snd. rewrite Hq. simpl fst.
    unfold report_failure, print_and_abort, print_and_return.
    destruct (is_failure e) eqn:He; [destruct (NDEBUG b)|].
    + intros H. injection H as <- _. split; [discriminate | reflexivity].
    + discriminate.
    + intros H. injection H as <- _. split; [|reflexivity].
      intros _. apply is_failure_false, He.
  - rewrite (checkCudaErrors_release b w Hd). intros H.
    injection H as <- _. split; [reflexivity | discriminate].
Qed.

(** [checkCuda] never touches the runtime: whatever the build and the
    status, the runtime state after the call is the one before it, and all
    the call adds to the history are output and termination events. *)
Theorem checkCuda_leaves_runtime_alone (b : build) (r : cudaError_t) (w : world) :
  dev (final_world (checkCuda b r w)) = dev w
  /\ exists out : list event,
       trace (final_world (checkCuda b r w)) = trace w ++ out
       /\ forallb visible out = true.
Proof.
  destruct (debug_enabled b) eqn:Hd.
  - rewrite (checkCuda_debug b r w Hd). destruct (is_failure r).
    + unfold report_failure. destruct (NDEBUG b).
      * split; [reflexivity|].
        exists [Stderr (runtime_error_message r)]. split; reflexivity.
      * split; [reflexivity|].
        exists [Stderr (runtime_error_message r);
                AssertionFailed "result == cudaSuccess"].
        split; [|reflexivity].
        unfold print_and_abort, emit. simpl. rewrite <- app_assoc. reflexivity.
    + split; [reflexivity|]. exists []. simpl. rewrite app_nil_r. auto.
  - rewrite (checkCuda_release b r w Hd).
    split; [reflexivity|]. exists []. simpl. rewrite app_nil_r. auto.
Qed.

(** With a runtime that records what a synchronisation reports, a failed
    synchronisation is always reported twice by a debug build's
    [checkCudaErrors]: the call prints the launch error, then the runtime
    error for the status the query returns; it then aborts if assertions
    are enabled, and returns that status if [NDEBUG] is defined. *)
Theorem failed_synchronize_is_reported (L : CudaRuntimeLaws R) (b : build) (w : world)
        (r : cudaError_t) (d1 : device) :
  debug_enabled b = true ->
  cudaDeviceSynchronize (dev w) = (r, d1) -> r <> cudaSuccess ->
  exists e : cudaError_t,
    e <> cudaSuccess
    /\ fst (cudaGetLastError d1) = e
    /\ observe (checkCudaErrors b w)
       = (if NDEBUG b then Some e else None,
          filter visible (trace w)
          ++ [Stderr (launch_error_message r); Stderr (runtime_error_message e)]
          ++ (if NDEBUG b then [] else [AssertionFailed "result == cudaSuccess"])).
Proof.
  intros Hd Hs Hr.
  destruct (cudaGetLastError d1) as [e d2] eqn:Hq.
  pose proof (sync_error_is_recorded _ _ _ Hs Hr) as He.
  rewrite Hq in He. simpl in He.
  exists e. split; [exact He|]. split; [reflexivity|].
  rewrite (checkCudaErrors_debug b w Hd r d1 e d2 Hs Hq).
  rewrite (is_failure_true e He).
  unfold observe, report_failure, print_and_abort, print_and_return,
    after_sync_and_query, emit.
  destruct (NDEBUG b); simpl; rewrite (is_failure_true r Hr);
    rewrite !filter_app; simpl; rewrite <- ?app_assoc; reflexivity.
Qed.

End ErrorChecksFurther.

Lemma checkCudaErrors_return_value_witness :
  (debug_enabled nvcc_debug && NDEBUG nvcc_debug = false -> 0 = cudaSuccess)
  /\ (debug_enabled nvcc_debug = true ->
      0 = fst (SimRuntime.get_last_error (snd (SimRuntime.synchronize SimRuntime.idle)))).
Proof.
  apply (checkCudaErrors_return_value nvcc_debug
           (SimRuntime.start SimRuntime.idle)
           (SimRuntime.world_of SimRuntime.idle [DeviceSynchronized; LastErrorQueried])).
  reflexivity.
Defined.

Lemma failed_synchronize_is_reported_witness :
  exists e : cudaError_t,
    e <> cudaSuccess
    /\ fst (SimRuntime.get_last_error (snd (SimRuntime.synchronize SimRuntime.faulted))) = e
    /\ observe (checkCudaErrors nvcc_debug_ndebug (SimRuntime.start SimRuntime.faulted))
       = (Some e,
          [Stderr (@launch_error_message SimRuntime.runtime 2);
           Stderr (@runtime_error_message SimRuntime.runtime e)]).
Proof.
  apply (failed_synchronize_is_reported SimRuntimeFacts.laws nvcc_debug_ndebug
           (SimRuntime.start SimRuntime.faulted) 2
           (snd (SimRuntime.synchronize SimRuntime.faulted)));
    [reflexivity | reflexivity | discriminate].
Defined.

(** ** More on the macros *)

Lemma ends_with_append (c : Ascii.ascii) (s t : string) :
  t <> EmptyString -> ends_with c (s ++ t) = ends_with c t.
Proof.
  intros Ht. induction s as [|a s IH]; [reflexivity|].
  simpl. rewrite IH.
  destruct (s ++ t)%string eqn:E; [|reflexivity].
  destruct s; simpl in E; [contradiction | discriminate].
Qed.

Lemma differ_by_ending (c : Ascii.ascii) (s k : string) :
  ends_with c s = true -> ends_with c k = false -> String.eqb s k = false.
Proof.
  intros Hs Hk. apply String.eqb_neq. intros ->. congruence.
Qed.

Lemma string_length_append (s t : string) :
  String.length (s ++ t) = (String.length s + String.length t)%nat.
Proof.
  induction s as [|a s IH]; simpl; [reflexivity | rewrite IH; reflexivity].
Qed.

Lemma append_cancel_r (s1 s2 t : string) : (s1 ++ t = s2 ++ t)%string -> s1 = s2.
Proof.
  revert s2. induction s1 as [|a s1 IH]; intros [|a2 s2] H; simpl in H.
  - reflexivity.
  - apply (f_equal String.length) in H. simpl in H.
    rewrite string_length_append in H. lia.
  - apply (f_equal String.length) in H. simpl in H.
    rewrite string_length_append in H. lia.
  - injection H as -> H. f_equal. apply IH, H.
Qed.

Lemma string_append_assoc (p u t : string) :
  ((p ++ u) ++ t = p ++ (u ++ t))%string.
Proof.
  induction p as [|c p IH]; simpl; [reflexivity | rewrite IH; reflexivity].
Qed.

Lemma devconst_never_hostconst (n1 n2 : string) :
  (n1 ++ "_devconst")%string <> (n2 ++ "_hostconst")%string.
Proof.
  intros H.
  change "_devconst"%string with ("_dev" ++ "const")%string in H.
  change "_hostconst"%string with ("_host" ++ "const")%string in H.
  rewrite <- !string_append_assoc in H.
  apply append_cancel_r in H.
  apply (f_equal (ends_with (Ascii.ascii_of_nat 118))) in H.
  rewrite !ends_with_append in H by discriminate.
  discriminate.
Qed.

Lemma host_clean_app (a c : list token) :
  host_clean (a ++ c) = host_clean a && host_clean c.
Proof. apply forallb_app. Qed.

Lemma hostconst_token_is_clean (t : token) :
  cuda_only (paste_token t "_hostconst") = false.
Proof.
  assert (H : forall s k, ends_with (Ascii.ascii_of_nat 116) k = false ->
                          String.eqb (s ++ "_hostconst") k = false).
  { intros s k Hk. apply (differ_by_ending (Ascii.ascii_of_nat 116)); [|exact Hk].
    rewrite ends_with_append by discriminate. reflexivity. }
  destruct t as [s|s|s]; [| |reflexivity];
    unfold paste_token, cuda_only, cuda_keywords, cuda_punctuators;
    cbn [existsb]; rewrite !H by reflexivity; reflexivity.
Qed.

Lemma hostconst_paste_is_clean (def : list token) :
  host_clean def = true -> host_clean (paste def "_hostconst") = true.
Proof.
  induction def as [|t def IH]; intros H; [reflexivity|].
  destruct def as [|t' def].
  - simpl. rewrite hostconst_token_is_clean. reflexivity.
  - change (paste (t :: t' :: def) "_hostconst")
      with (t :: paste (t' :: def) "_hostconst").
    change (host_clean (t :: t' :: def))
      with (negb (cuda_only t) && host_clean (t' :: def)) in H.
    apply andb_prop in H. destruct H as [Ht Hrest].
    change (negb (cuda_only t) && host_clean (paste (t' :: def) "_hostconst") = true).
    rewrite Ht, IH by exact Hrest. reflexivity.
Qed.

(** What a host compiler gets to see is free of CUDA: with [__CUDACC__]
    undefined, no expansion of a HEMI macro holds a CUDA keyword or launch
    bracket, provided the kernel name and the arguments that are kept hold
    none.  The launch configuration may hold anything: it is dropped. *)
Theorem host_expansions_are_cuda_free (b : build) :
  __CUDACC__ b = false ->
  (forall name, cuda_only (Id name) = false ->
     host_clean (HEMI_KERNEL b name) = true
     /\ host_clean (HEMI_KERNEL_NAME b name) = true
     /\ forall gridDim blockDim sharedBytes streamId args,
          host_clean args = true ->
          host_clean (HEMI_KERNEL_LAUNCH b name gridDim blockDim sharedBytes streamId args)
          = true)
  /\ (host_clean (HEMI_DEV_CALLABLE b) = true
      /\ host_clean (HEMI_DEV_CALLABLE_INLINE b) = true
      /\ host_clean (HEMI_DEV_CALLABLE_MEMBER b) = true
      /\ host_clean (HEMI_DEV_CALLABLE_INLINE_MEMBER b) = true)
  /\ (forall name, host_clean (HEMI_CONSTANT b name) = true)
  /\ (forall def value,
        host_clean def = true -> host_clean value = true ->
        host_clean (HEMI_DEFINE_CONSTANT b def value) = true)
  /\ (forall gnuc msc n ts,
        host_clean n = true -> HEMI_DEV_ALIGN b gnuc msc n = Some ts ->
        host_clean ts = true).
Proof.
  intros Hhost.
  unfold HEMI_KERNEL, HEMI_KERNEL_NAME, HEMI_KERNEL_LAUNCH, HEMI_DEV_CALLABLE,
    HEMI_DEV_CALLABLE_INLINE, HEMI_DEV_CALLABLE_MEMBER,
    HEMI_DEV_CALLABLE_INLINE_MEMBER, HEMI_CONSTANT, HEMI_DEFINE_CONSTANT,
    HEMI_DEV_ALIGN.
  rewrite Hhost. repeat apply conj; try reflexivity.
  - intros name Hname. unfold parens.
    repeat apply conj.
    + unfold host_clean. cbn [forallb]. rewrite Hname. reflexivity.
    + unfold host_clean. cbn [forallb]. rewrite Hname. reflexivity.
    + intros _ _ _ _ args Hargs.
      rewrite !host_clean_app, Hargs. unfold host_clean. cbn [forallb].
      rewrite Hname. reflexivity.
  - intros name. unfold host_clean. cbn [forallb paste].
    rewrite (hostconst_token_is_clean (Id name)). reflexivity.
  - intros def value Hdef Hvalue.
    rewrite !host_clean_app, Hvalue, hostconst_paste_is_clean by exact Hdef.
    reflexivity.
  - intros gnuc msc n ts Hn Hts. unfold parens in Hts.
    destruct gnuc; [|destruct msc; [|discriminate]];
      injection Hts as <-; unfold host_clean in *; cbn [forallb app];
      rewrite ?forallb_app, Hn; reflexivity.
Qed.

Lemma host_expansions_are_cuda_free_witness :
  host_clean (HEMI_KERNEL_LAUNCH host_debug "saxpy"
                [Id "grid"] [Id "block"] [Lit "0"] [Punct "<<<"]
                [Id "n"; Punct ","; Id "x"]) = true
  /\ host_clean (HEMI_DEFINE_CONSTANT host_debug [Id "float"; Id "Pi"] [Lit "3.14159"])
     = true.
Proof.
  destruct (host_expansions_are_cuda_free host_debug eq_refl)
    as (Hk & _ & _ & Hd & _).
  split.
  - apply (proj2 (proj2 (Hk "saxpy"%string eq_refl))). reflexivity.
  - apply Hd; reflexivity.
Defined.

(** No argument of a launch is evaluated twice: under the CUDA compiler
    every token of the four launch parameters and of the kernel arguments
    occurs in the expansion as often as in the arguments; under a host
    compiler the kernel arguments do, and the launch parameters do not
    occur at all. *)
Theorem launch_argument_occurrences (b : build) (name : string)
        (gridDim blockDim sharedBytes streamId args : list token) (t : token) :
  occurrences t (HEMI_KERNEL_LAUNCH b name gridDim blockDim sharedBytes streamId args)
  = (occurrences t (HEMI_KERNEL_LAUNCH b name [] [] [] [] [])
     + (if __CUDACC__ b
        then occurrences t gridDim + occurrences t blockDim
             + occurrences t sharedBytes + occurrences t streamId
        else 0)
     + occurrences t args)%nat.
Proof.
  unfold occurrences, HEMI_KERNEL_LAUNCH, kernel_launch_expr, parens.
  destruct (__CUDACC__ b); [destruct (debug_enabled b)|];
    rewrite !count_occ_app;
    change (count_occ token_eq_dec [] t) with O; lia.
Qed.

(** The initializer of a constant is written out once per copy: twice
    under the CUDA compiler, once under a host compiler. *)
Theorem define_constant_occurrences (b : build) (def value : list token) (t : token) :
  occurrences t (HEMI_DEFINE_CONSTANT b def value)
  = (occurrences t (HEMI_DEFINE_CONSTANT b def [])
     + (if __CUDACC__ b then 2 else 1) * occurrences t value)%nat.
Proof.
  unfold occurrences, HEMI_DEFINE_CONSTANT.
  destruct (__CUDACC__ b);
    rewrite !count_occ_app;
    change (count_occ token_eq_dec [] t) with O; lia.
Qed.

Lemma kernel_symbol_is_not_checkCudaErrors (name : string) :
  Id (name ++ "_kernel") <> Id "checkCudaErrors".
Proof.
  intros H. injection H as H.
  apply (f_equal (ends_with (Ascii.ascii_of_nat 108))) in H.
  rewrite ends_with_append in H by discriminate. discriminate.
Qed.

(** A launch is followed by [checkCudaErrors()], and so by a device
    synchronisation, in exactly one configuration: CUDA compiler and debug
    build.  A host build never calls it, debug or not. *)
Theorem launch_checks_errors_only_in_cuda_debug (b : build) (name : string)
        (gridDim blockDim sharedBytes streamId args : list token) :
  name <> "checkCudaErrors"%string ->
  ~ In (Id "checkCudaErrors") (gridDim ++ blockDim ++ sharedBytes ++ streamId ++ args) ->
  In (Id "checkCudaErrors")
     (HEMI_KERNEL_LAUNCH b name gridDim blockDim sharedBytes streamId args)
  <-> __CUDACC__ b && debug_enabled b = true.
Proof.
  intros Hname Hargs.
  pose proof (kernel_symbol_is_not_checkCudaErrors name) as Hk.
  rewrite !in_app_iff in Hargs.
  unfold HEMI_KERNEL_LAUNCH, kernel_launch_expr, parens.
  destruct (__CUDACC__ b); [destruct (debug_enabled b)|]; simpl andb;
    rewrite !in_app_iff; simpl; split; intros H; try reflexivity; try discriminate.
  - tauto.
  - exfalso.
    repeat match goal with
           | H : _ \/ _ |- _ => destruct H as [H | H]
           end; try discriminate; try tauto; try congruence.
  - exfalso.
    repeat match goal with
           | H : _ \/ _ |- _ => destruct H as [H | H]
           end; try discriminate; try tauto; try congruence.
Qed.

Lemma launch_checks_errors_only_in_cuda_debug_witness :
  In (Id "checkCudaErrors")
     (HEMI_KERNEL_LAUNCH nvcc_debug "saxpy" [Lit "4"] [Lit "256"] [Lit "0"] [Lit "0"]
                         [Id "n"])
  /\ ~ In (Id "checkCudaErrors")
       (HEMI_KERNEL_LAUNCH host_debug "saxpy" [Lit "4"] [Lit "256"] [Lit "0"] [Lit "0"]
                           [Id "n"]).
Proof.
  assert (Hn : "saxpy"%string <> "checkCudaErrors"%string) by discriminate.
  assert (Ha : ~ In (Id "checkCudaErrors")
                 ([Lit "4"] ++ [Lit "256"] ++ [Lit "0"] ++ [Lit "0"] ++ [Id "n"])).
  { simpl. intros H.
    repeat match goal with
           | H : _ \/ _ |- _ => destruct H as [H | H]
           end; try discriminate; exact H. }
  split.
  - apply (launch_checks_errors_only_in_cuda_debug nvcc_debug "saxpy" _ _ _ _ _ Hn Ha).
    reflexivity.
  - intros H.
    apply (launch_checks_errors_only_in_cuda_debug host_debug "saxpy" _ _ _ _ _ Hn Ha) in H.
    discriminate.
Defined.

(** The derived names are injective and keep the two copies apart:
    different kernels get different entry points, different constants
    different symbols, and the device copy of one constant is never the
    host copy of another. *)
Theorem derived_names_do_not_collide (b : build) (n1 n2 : string) :
  (HEMI_KERNEL_NAME b n1 = HEMI_KERNEL_NAME b n2 -> n1 = n2)
  /\ (HEMI_CONSTANT b n1 = HEMI_CONSTANT b n2 -> n1 = n2)
  /\ (__CUDACC__ b = true -> HEMI_DEV_CONSTANT b n1 = HEMI_DEV_CONSTANT b n2 -> n1 = n2)
  /\ HEMI_DEV_CONSTANT b n1 <> Some (paste [Id n2] "_hostconst").
Proof.
  assert (Hcancel : forall suffix : string,
             [Id (n1 ++ suffix)] = [Id (n2 ++ suffix)] -> n1 = n2).
  { intros suffix H. injection H as H. apply (append_cancel_r _ _ _ H). }
  unfold HEMI_KERNEL_NAME, HEMI_CONSTANT, HEMI_DEV_CONSTANT, HEMI_DEV_CODE.
  destruct (__CUDACC__ b); [destruct (__CUDA_ARCH__ b)|]; simpl.
  - split; [apply Hcancel|]. split; [apply Hcancel|]. split.
    + intros _ H. injection H as H. apply (append_cancel_r _ _ _ H).
    + intros H. injection H as H. apply (devconst_never_hostconst _ _ H).
  - split; [apply Hcancel|]. split; [apply Hcancel|]. split.
    + intros _ H. injection H as H. apply (append_cancel_r _ _ _ H).
    + intros H. injection H as H. apply (devconst_never_hostconst _ _ H).
  - split; [intros H; injection H as H; exact H|]. split; [apply Hcancel|].
    split; [discriminate | discriminate].
Qed.

Lemma derived_names_do_not_collide_witness :
  HEMI_KERNEL_NAME nvcc_host_pass "saxpy" <> HEMI_KERNEL_NAME nvcc_host_pass "saxp".
Proof.
  intros H.
  apply (proj1 (derived_names_do_not_collide nvcc_host_pass "saxpy" "saxp")) in H.
  discriminate.
Defined.

Lemma statements_nonempty (l : list token) : statements l <> [].
Proof.
  destruct l as [|t l]; simpl; [discriminate|].
  destruct (token_eqb t (Punct ";")); [discriminate|].
  destruct (statements l); discriminate.
Qed.

Lemma statements_split (l r : list token) :
  statements (l ++ Punct ";" :: r) = statements l ++ statements r.
Proof.
  induction l as [|t l IH]; [reflexivity|].
  simpl. rewrite IH.
  destruct (token_eqb t (Punct ";")); [reflexivity|].
  pose proof (statements_nonempty l) as Hne.
  destruct (statements l); [contradiction | reflexivity].
Qed.

Lemma declarations_split (l r : list token) :
  declarations (l ++ Punct ";" :: r) = declarations l ++ declarations r.
Proof.
  unfold declarations. rewrite statements_split. apply flat_map_app.
Qed.

Lemma eqb_distinct_names (n1 n2 suffix : string) :
  n1 <> n2 -> String.eqb (n1 ++ suffix) (n2 ++ suffix) = false.
Proof.
  intros Hne. apply String.eqb_neq. intros H. apply Hne.
  apply (append_cancel_r _ _ _ H).
Qed.

Lemma eqb_dev_host (n1 n2 : string) :
  String.eqb (n1 ++ "_devconst") (n2 ++ "_hostconst") = false.
Proof. apply String.eqb_neq, devconst_never_hostconst. Qed.

Lemma eqb_host_dev (n1 n2 : string) :
  String.eqb (n1 ++ "_hostconst") (n2 ++ "_devconst") = false.
Proof.
  apply String.eqb_neq. intros H. symmetry in H.
  apply (devconst_never_hostconst _ _ H).
Qed.

(** Two constants defined one after the other keep their own values:
    each reads back, through [HEMI_CONSTANT], the initializer it was
    defined with, in every build. *)
Theorem two_constants_do_not_interfere (b : build)
        (ty1 : list token) (n1 : string) (V1 : list token)
        (ty2 : list token) (n2 : string) (V2 : list token) :
  n1 <> n2 ->
  ~ In (Punct ";") ty1 -> ~ In (Punct "=") ty1 -> ~ In (Punct ";") V1 ->
  ~ In (Punct ";") ty2 -> ~ In (Punct "=") ty2 -> ~ In (Punct ";") V2 ->
  let unit :=
    declarations (HEMI_DEFINE_CONSTANT b (ty1 ++ [Id n1]) V1 ++ [Punct ";"]
                  ++ HEMI_DEFINE_CONSTANT b (ty2 ++ [Id n2]) V2 ++ [Punct ";"]) in
  read_constant (HEMI_CONSTANT b n1) unit = Some V1
  /\ read_constant (HEMI_CONSTANT b n2) unit = Some V2.
Proof.
  intros Hne Ht1 He1 Hv1 Ht2 He2 Hv2 unit. subst unit.
  change ([Punct ";"] ++ HEMI_DEFINE_CONSTANT b (ty2 ++ [Id n2]) V2 ++ [Punct ";"])
    with (Punct ";" :: (HEMI_DEFINE_CONSTANT b (ty2 ++ [Id n2]) V2 ++ [Punct ";"])).
  rewrite declarations_split.
  rewrite (define_constant_declarations b ty2 n2 V2) by assumption.
  pose proof (define_constant_declarations b ty1 n1 V1 Ht1 He1 Hv1) as E1.
  change (HEMI_DEFINE_CONSTANT b (ty1 ++ [Id n1]) V1 ++ [Punct ";"])
    with (HEMI_DEFINE_CONSTANT b (ty1 ++ [Id n1]) V1 ++ Punct ";" :: []) in E1.
  rewrite declarations_split in E1.
  change (declarations []) with (@nil declaration) in E1.
  rewrite app_nil_r in E1. rewrite E1.
  unfold HEMI_CONSTANT, HEMI_DEV_CODE, read_constant, lookup.
  destruct (__CUDACC__ b); [destruct (__CUDA_ARCH__ b)|]; simpl;
    rewrite ?String.eqb_refl, ?devconst_is_not_hostconst, ?eqb_dev_host,
      ?eqb_host_dev, ?(eqb_distinct_names n1 n2) by exact Hne;
    simpl; rewrite ?String.eqb_refl; split; reflexivity.
Qed.

Lemma two_constants_do_not_interfere_witness :
  read_constant (HEMI_CONSTANT nvcc_host_pass "E")
    (declarations
       (HEMI_DEFINE_CONSTANT nvcc_host_pass ([Id "float"] ++ [Id "Pi"]) [Lit "3.14159"]
        ++ [Punct ";"]
        ++ HEMI_DEFINE_CONSTANT nvcc_host_pass ([Id "float"] ++ [Id "E"]) [Lit "2.71828"]
        ++ [Punct ";"]))
  = Some [Lit "2.71828"].
Proof.
  assert (Hty : forall p, ~ In (Punct p) [Id "float"])
    by (intros p [H | []]; discriminate).
  assert (Hv : forall v, ~ In (Punct ";") [Lit v])
    by (intros v [H | []]; discriminate).
  exact (proj2 (two_constants_do_not_interfere nvcc_host_pass
                  [Id "float"] "Pi" [Lit "3.14159"] [Id "float"] "E" [Lit "2.71828"]
                  ltac:(discriminate) (Hty _) (Hty _) (Hv _) (Hty _) (Hty _) (Hv _))).
Defined.

(** Under the CUDA compiler the object [HEMI_DEV_CONSTANT(name)] names is
    the copy [HEMI_DEFINE_CONSTANT] put in constant memory, initialized
    with [V]; and it is the object [HEMI_CONSTANT(name)] names in the
    device pass only: in the host pass the two accessors name different
    objects. *)
Theorem dev_constant_reads_constant_memory (b : build) (ty : list token)
        (name : string) (V : list token) :
  __CUDACC__ b = true ->
  ~ In (Punct ";") ty -> ~ In (Punct "=") ty -> ~ In (Punct ";") V ->
  let unit :=
    declarations (HEMI_DEFINE_CONSTANT b (ty ++ [Id name]) V ++ [Punct ";"]) in
  exists (sym : list token) (d : declaration),
    HEMI_DEV_CONSTANT b name = Some sym
    /\ read_constant sym unit = Some V
    /\ lookup (name ++ "_devconst") unit = Some d
    /\ in_constant_memory d = true
    /\ (sym = HEMI_CONSTANT b name <-> HEMI_DEV_CODE b = true).
Proof.
  intros Hcuda Hsemi Heq Hvsemi unit. subst unit.
  rewrite define_constant_declarations by assumption.
  unfold HEMI_DEV_CONSTANT, HEMI_CONSTANT, HEMI_DEV_CODE. rewrite Hcuda.
  exists [Id (name ++ "_devconst")].
  exists {| specifiers := Id "__constant__" :: ty;
            declared := name ++ "_devconst"; initial_value := V |}.
  split; [reflexivity|].
  unfold read_constant, lookup. simpl. rewrite String.eqb_refl. simpl.
  split; [reflexivity|]. split; [reflexivity|]. split; [reflexivity|].
  destruct (__CUDA_ARCH__ b); split; intros H; try reflexivity; try discriminate.
  injection H as H. apply append_cancel_l in H. discriminate.
Qed.

Lemma dev_constant_reads_constant_memory_witness :
  exists (sym : list token) (d : declaration),
    HEMI_DEV_CONSTANT nvcc_host_pass "Pi" = Some sym
    /\ read_constant sym
         (declarations
            (HEMI_DEFINE_CONSTANT nvcc_host_pass ([Id "float"] ++ [Id "Pi"])
                                  [Lit "3.14159"] ++ [Punct ";"]))
       = Some [Lit "3.14159"]
    /\ lookup ("Pi" ++ "_devconst")
         (declarations
            (HEMI_DEFINE_CONSTANT nvcc_host_pass ([Id "float"] ++ [Id "Pi"])
                                  [Lit "3.14159"] ++ [Punct ";"]))
       = Some d
    /\ in_constant_memory d = true
    /\ (sym = HEMI_CONSTANT nvcc_host_pass "Pi" <-> HEMI_DEV_CODE nvcc_host_pass = true).
Proof.
  assert (Hty : forall p, ~ In (Punct p) [Id "float"])
    by (intros p [H | []]; discriminate).
  assert (Hv : ~ In (Punct ";") [Lit "3.14159"])
    by (intros [H | []]; discriminate).
  exact (dev_constant_reads_constant_memory nvcc_host_pass [Id "float"] "Pi"
           [Lit "3.14159"] eq_refl (Hty _) (Hty _) Hv).
Defined.

(** ** The header as a whole *)

Module HeaderFacts.
Import Header.

Lemma fresh_name (env : macro_env) (m : string) :
  fresh env = true -> In m header_names -> defined env m = false.
Proof.
  intros Hf Hin. unfold fresh in Hf. rewrite forallb_forall in Hf.
  apply Hf in Hin. destruct (defined env m); [discriminate | reflexivity].
Qed.

Lemma defined_define (k m : string) (env : macro_env) :
  defined (define m env) k = String.eqb k m || defined env k.
Proof. reflexivity. Qed.

(** Decide what [defined] says about an environment built by [define]s
    of known names. *)
Ltac compare_names :=
  repeat match goal with
         | |- context [String.eqb ?a ?b] =>
             let v := eval vm_compute in (String.eqb a b) in
             change (String.eqb a b) with v
         end.

Ltac look_up := rewrite ?defined_define; compare_names; cbn [orb].

Ltac run_include :=
  unfold include_hemi, define_all, cuda_branch_macros, host_branch_macros;
  cbn [fold_left]; look_up.

(** The include guard works: after one successful inclusion a second one
    adds no function and leaves every macro as it is; and a first
    inclusion that succeeds adds each of the four inline functions once. *)
Theorem include_is_idempotent (env env' : macro_env) (fs : list string) :
  include_hemi env = Included env' fs ->
  include_hemi env' = Included env' []
  /\ (defined env "__HEMI_H__" = false -> fs = inline_functions /\ NoDup fs).
Proof.
  assert (Hnd : NoDup inline_functions).
  { unfold inline_functions.
    repeat (constructor; [simpl; intros H;
                          repeat (destruct H as [H|H]; [discriminate|]); exact H|]).
    constructor. }
  intros H.
  assert (Hguard : defined env' "__HEMI_H__" = true
                   /\ (defined env "__HEMI_H__" = false -> fs = inline_functions)).
  { revert H. run_include.
    destruct (defined env "__HEMI_H__") eqn:Hg.
    - intros H. injection H as <- <-. split; [exact Hg | discriminate].
    - destruct (defined env "__CUDACC__");
        [destruct (defined env "__CUDA_ARCH__")
        |destruct (defined env "__GNUC__");
         [|destruct (defined env "_MSC_VER"); [|discriminate]]];
        intros H; injection H as <- <-; look_up; auto. }
  destruct Hguard as [Hg Hfs]. split.
  - unfold include_hemi. rewrite Hg. reflexivity.
  - intros Hfresh. rewrite (Hfs Hfresh). auto.
Qed.

Lemma include_is_idempotent_witness :
  exists env' : macro_env,
    include_hemi ["__GNUC__"%string] = Included env' inline_functions
    /\ include_hemi env' = Included env' [].
Proof.
  eexists. split; [reflexivity|].
  apply (proj1 (include_is_idempotent ["__GNUC__"%string] _ inline_functions eq_refl)).
Defined.

(** The header cannot be included at all by a host compiler that is
    neither GNU-compatible nor Microsoft's: the first inclusion stops at
    the [#error] directive exactly when none of [__CUDACC__], [__GNUC__]
    and [_MSC_VER] is defined, whether or not [HEMI_DEV_ALIGN] is used. *)
Theorem include_fails_on_unknown_host_compiler (env : macro_env) :
  (exists message, include_hemi env = Failed message)
  <-> defined env "__HEMI_H__" = false
      /\ defined env "__CUDACC__" = false
      /\ defined env "__GNUC__" = false
      /\ defined env "_MSC_VER" = false.
Proof.
  run_include.
  destruct (defined env "__HEMI_H__");
    [|destruct (defined env "__CUDACC__");
      [destruct (defined env "__CUDA_ARCH__")
      |destruct (defined env "__GNUC__");
       [|destruct (defined env "_MSC_VER")]]];
    split; try (intros [m H]; discriminate);
    try (intros (H0 & H1 & H2 & H3); discriminate).
  - intros _. auto.
  - intros _. eexists. reflexivity.
Qed.

(** What an inclusion into a file that has not used the header's names
    provides: the ten portable macros, [HEMI_DEV_ALIGN] and
    [HEMI_VERSION] in either branch; exactly one of [HEMI_CUDA_COMPILER]
    and [HEMI_HOST_COMPILER]; [HEMI_DEV_CODE] only together with
    [HEMI_CUDA_COMPILER]; [HEMI_DEV_CONSTANT] only under the CUDA compiler;
    and nothing that was defined before is lost. *)
Theorem include_provides_interface (env env' : macro_env) (fs : list string) :
  fresh env = true ->
  include_hemi env = Included env' fs ->
  (forall m, In m portable_macros -> defined env' m = true)
  /\ defined env' "HEMI_DEV_ALIGN" = true
  /\ defined env' "HEMI_VERSION" = true
  /\ defined env' "HEMI_CUDA_COMPILER" = HEMI_CUDA_COMPILER (build_of env)
  /\ defined env' "HEMI_HOST_COMPILER" = HEMI_HOST_COMPILER (build_of env)
  /\ defined env' "HEMI_DEV_CODE" = HEMI_DEV_CODE (build_of env)
  /\ defined env' "HEMI_DEV_CONSTANT" = __CUDACC__ (build_of env)
  /\ (forall m, defined env m = true -> defined env' m = true).
Proof.
  intros Hf.
  pose proof (fresh_name env "__HEMI_H__" Hf ltac:(simpl; tauto)) as Hguard.
  pose proof (fresh_name env "HEMI_CUDA_COMPILER" Hf ltac:(simpl; tauto)) as Hc.
  pose proof (fresh_name env "HEMI_HOST_COMPILER" Hf ltac:(simpl; tauto)) as Hh.
  pose proof (fresh_name env "HEMI_DEV_CODE" Hf ltac:(simpl; tauto)) as Hd.
  pose proof (fresh_name env "HEMI_DEV_CONSTANT" Hf ltac:(simpl; tauto)) as Hdc.
  unfold HEMI_CUDA_COMPILER, HEMI_HOST_COMPILER, HEMI_DEV_CODE, build_of.
  cbn [__CUDACC__ __CUDA_ARCH__].
  run_include. rewrite Hguard.
  destruct (defined env "__CUDACC__");
    [destruct (defined env "__CUDA_ARCH__")
    |destruct (defined env "__GNUC__");
     [|destruct (defined env "_MSC_VER"); [|discriminate]]];
    intros H; injection H as <- _; look_up;
    rewrite ?Hc, ?Hh, ?Hd, ?Hdc;
    (repeat apply conj; try reflexivity;
     [ intros m Hm; unfold portable_macros in Hm;
       repeat (destruct Hm as [<-|Hm]; [look_up; reflexivity|]); contradiction
     | intros m Hm; rewrite ?defined_define, Hm, ?orb_true_r; reflexivity ]).
Qed.

Lemma include_provides_interface_witness :
  exists env' : macro_env,
    include_hemi ["__CUDACC__"%string] = Included env' inline_functions
    /\ defined env' "HEMI_CUDA_COMPILER" = true
    /\ defined env' "HEMI_HOST_COMPILER" = false
    /\ defined env' "HEMI_DEV_CODE" = false.
Proof.
  eexists. split; [reflexivity|].
  destruct (include_provides_interface ["__CUDACC__"%string] _ inline_functions
              eq_refl eq_refl) as (_ & _ & _ & Hc & Hh & Hd & _).
  repeat split; assumption.
Defined.

End HeaderFacts.

(** [HEMI_VERSION] is written with leading zeros, which makes it an octal
    literal: its value is 64, and the decoding given beside it yields
    major version 0 and minor version 0, where the same digits read in
    decimal would give minor version 1. *)
Theorem hemi_version_is_octal :
  c_integer_literal HEMI_VERSION_literal = Some 64
  /\ HEMI_VERSION = 64
  /\ major_version HEMI_VERSION = 0
  /\ minor_version HEMI_VERSION = 0
  /\ read_digits 10 0 HEMI_VERSION_literal = Some 100
  /\ minor_version 100 = 1.
Proof. repeat split. Qed.
